(** * RMSNorm: the PyTorch-native reference path of
      [vllm/model_executor/layers/layernorm.py]

    The development embeds [RMSNorm.__init__] and [RMSNorm._forward] and the
    torch primitives they call.  Tensors carry a dtype, a shape and row-major
    data; scalars are IEEE-754 values of the Standard Library's [SpecFloat],
    rounded to nearest-even at the precision of their dtype. *)

From Stdlib Require Import ZArith QArith Floats.SpecFloat.
From stdpp Require Import base option list strings gmap.

Set Default Proof Using "Type".

(** ** Scalars *)

Module Scalar.

(** The floating dtypes of torch. *)
Inductive dtype := float16 | bfloat16 | float32 | float64.

#[global] Instance dtype_eq_dec : EqDecision dtype.
Proof. solve_decision. Defined.

(** Mantissa width (with the implicit bit) and exponent of the infinities. *)
Definition prec (d : dtype) : Z :=
  match d with float16 => 11 | bfloat16 => 8 | float32 => 24 | float64 => 53 end%Z.

Definition emax (d : dtype) : Z :=
  match d with float16 => 16 | bfloat16 => 128 | float32 => 128 | float64 => 1024 end%Z.

(** Bits of storage of one element. *)
Definition itemsize_bits (d : dtype) : nat :=
  match d with float16 => 16 | bfloat16 => 16 | float32 => 32 | float64 => 64 end.

Definition fadd (d : dtype) : spec_float → spec_float → spec_float := SFadd (prec d) (emax d).
Definition fmul (d : dtype) : spec_float → spec_float → spec_float := SFmul (prec d) (emax d).
Definition fdiv (d : dtype) : spec_float → spec_float → spec_float := SFdiv (prec d) (emax d).
Definition fsqrt (d : dtype) : spec_float → spec_float := SFsqrt (prec d) (emax d).

(** An integer as a scalar of dtype [d]. *)
Definition of_Z (d : dtype) (n : Z) : spec_float :=
  binary_normalize (prec d) (emax d) n 0 false.

(** Conversion of a scalar to dtype [d]: zeros, infinities and NaN are kept,
    a finite value is rounded to nearest-even, overflowing to an infinity. *)
Definition cast (d : dtype) (v : spec_float) : spec_float :=
  match v with
  | S754_finite s m e => binary_round (prec d) (emax d) s m e
  | _ => v
  end.

Definition is_finite (v : spec_float) : bool :=
  match v with S754_zero _ | S754_finite _ _ _ => true | _ => false end.

Definition is_zero (v : spec_float) : bool :=
  match v with S754_zero _ => true | _ => false end.

Definition is_nan (v : spec_float) : bool :=
  match v with S754_nan => true | _ => false end.

(** The rational value of a finite scalar, in lowest terms. *)
Definition to_Q (v : spec_float) : option Q :=
  match v with
  | S754_zero _ => Some 0%Q
  | S754_finite s m e =>
      let a := (if s then Z.neg m else Z.pos m) in
      Some (Qred (match e with
                  | Z.neg p => Qmake a (2 ^ p)
                  | _ => inject_Z (a * 2 ^ e)
                  end))
  | _ => None
  end.

(** [torch.promote_types] on the floating dtypes. *)
Definition promote_types (a b : dtype) : dtype :=
  match a, b with
  | float64, _ | _, float64 => float64
  | float32, _ | _, float32 => float32
  | float16, float16 => float16
  | bfloat16, bfloat16 => bfloat16
  | float16, bfloat16 | bfloat16, float16 => float32
  end.

End Scalar.
Export Scalar.

(** ** Tensors *)

Module Torch.

Record tensor := Tensor {
  t_dtype : dtype;
  shape : list nat;
  data : list spec_float
}.

(** Number of elements of a shape. *)
Definition numel (s : list nat) : nat := foldr Nat.mul 1 s.

(** A tensor stores exactly as many scalars as its shape has positions. *)
Definition wf_tensor (t : tensor) : Prop := length (data t) = numel (shape t).

(** Errors: every failure of the modelled torch calls is a [RuntimeError]. *)
Inductive exn := RuntimeError.

Inductive result (A : Type) := Ok (a : A) | Raise (e : exn).
Arguments Ok {A} a.
Arguments Raise {A} e.

#[global] Instance result_ret : MRet result := λ A a, Ok a.

#[global] Instance result_bind : MBind result := λ A B k r,
  match r with Ok a => k a | Raise e => Raise e end.

(** [Tensor.to(dtype)]: a tensor that already has the dtype is returned as it
    is; otherwise every element is converted. *)
Definition to (d : dtype) (t : tensor) : tensor :=
  if decide (t_dtype t = d) then t
  else Tensor d (shape t) (cast d <$> data t).

(** *** Broadcasting *)

(** One dimension: equal sizes, or one of them is 1. *)
Definition broadcast_dim (m n : nat) : option nat :=
  if decide (m = n) then Some m
  else if decide (m = 1) then Some n
  else if decide (n = 1) then Some m
  else None.

(** Shapes of equal rank. *)
Fixpoint broadcast_aligned (a b : list nat) : option (list nat) :=
  match a, b with
  | [], [] => Some []
  | m :: a', n :: b' =>
      d ← broadcast_dim m n; s ← broadcast_aligned a' b'; Some (d :: s)
  | _, _ => None
  end.

(** A shape is aligned to rank [r] by leading dimensions of size 1. *)
Definition pad_shape (r : nat) (s : list nat) : list nat :=
  replicate (r - length s) 1 ++ s.

Definition broadcast_shapes (a b : list nat) : option (list nat) :=
  let r := length a `max` length b in
  broadcast_aligned (pad_shape r a) (pad_shape r b).

(** [n] consecutive chunks of [k] elements. *)
Fixpoint chunks {A} (k n : nat) (l : list A) : list (list A) :=
  match n with
  | 0 => []
  | S n' => take k l :: chunks k n' (drop k l)
  end.

(** The data of a tensor of shape [from] seen at shape [to_] (same rank, each
    dimension of [from] equal to that of [to_] or 1): a dimension of size 1
    is repeated. *)
Fixpoint expand {A} (from to_ : list nat) (d : list A) : list A :=
  match from, to_ with
  | m :: from', n :: to' =>
      if decide (m = n)
      then concat (expand from' to' <$> chunks (numel from') m d)
      else concat (replicate n (expand from' to' d))
  | _, _ => d
  end.

(** Result dtype of a binary operation on two floating tensors: tensors with
    dimensions take priority over zero-dimensional ones. *)
Definition result_type (a b : tensor) : dtype :=
  match shape a, shape b with
  | [], _ :: _ => t_dtype b
  | _ :: _, [] => t_dtype a
  | _, _ => promote_types (t_dtype a) (t_dtype b)
  end.

(** An elementwise binary operation with broadcasting and type promotion;
    shapes that cannot be broadcast raise. *)
Definition binary_op (f : dtype → spec_float → spec_float → spec_float)
    (a b : tensor) : result tensor :=
  match broadcast_shapes (shape a) (shape b) with
  | None => Raise RuntimeError
  | Some s =>
      let d := result_type a b in
      let r := length s in
      Ok (Tensor d s
            (zip_with (f d)
               (expand (pad_shape r (shape a)) s (data (to d a)))
               (expand (pad_shape r (shape b)) s (data (to d b)))))
  end.

Definition add : tensor → tensor → result tensor := binary_op fadd.
Definition mul : tensor → tensor → result tensor := binary_op fmul.

(** [t + c] for a Python float [c] (a binary64 value): the tensor keeps its
    dtype and the scalar is converted to it. *)
Definition add_scalar (t : tensor) (c : spec_float) : tensor :=
  let d := t_dtype t in
  Tensor d (shape t) ((λ v, fadd d v (cast d c)) <$> data t).

(** [t.pow(2)]: each element times itself. *)
Definition pow2 (t : tensor) : tensor :=
  let d := t_dtype t in
  Tensor d (shape t) ((λ v, fmul d v v) <$> data t).

(** [torch.rsqrt]: the reciprocal of the square root, as the CPU kernel
    takes it: a rounded square root, then a rounded division. *)
Definition rsqrt_scalar (d : dtype) (v : spec_float) : spec_float :=
  fdiv d (of_Z d 1) (fsqrt d v).

Definition rsqrt (t : tensor) : tensor :=
  let d := t_dtype t in
  Tensor d (shape t) (rsqrt_scalar d <$> data t).

(** Mean of one row: the sum over the count.  torch leaves the order of
    the additions to the kernel; here the sum is accumulated from the left,
    starting at +0. *)
Definition row_sum (d : dtype) (row : list spec_float) : spec_float :=
  foldl (fadd d) (S754_zero false) row.

Definition row_mean (d : dtype) (row : list spec_float) : spec_float :=
  fdiv d (row_sum d row) (of_Z d (Z.of_nat (length row))).

(** Length of the last dimension; a zero-dimensional tensor is reduced as a
    row of one element. *)
Definition last_dim (s : list nat) : nat := List.last s 1.

Definition keepdim_shape (s : list nat) : list nat :=
  match s with
  | [] => []
  | _ :: _ => removelast s ++ [1]
  end.

Definition rows (t : tensor) : list (list spec_float) :=
  chunks (last_dim (shape t)) (numel (removelast (shape t))) (data t).

(** [t.mean(dim=-1, keepdim=True)]. *)
Definition mean_lastdim (t : tensor) : tensor :=
  Tensor (t_dtype t) (keepdim_shape (shape t)) (row_mean (t_dtype t) <$> rows t).

(** [torch.ones(n)] for a Python int [n], at the default dtype [dd]. *)
Definition ones (dd : dtype) (n : Z) : result tensor :=
  if decide (n < 0)%Z then Raise RuntimeError
  else Ok (Tensor dd [Z.to_nat n] (replicate (Z.to_nat n) (of_Z dd 1))).

End Torch.
Export Torch.

(** ** The layer *)

Module RMSNorm.

(** The attributes of an instance. *)
Record t := Build {
  weight : tensor;
  variance_epsilon : spec_float
}.

(** The Python float [1e-6]: the binary64 value nearest to 10^-6. *)
Definition eps_default : spec_float := S754_finite false 4722366482869645 (-72).

(** [__init__(self, hidden_size, eps=1e-6)]; [dd] is torch's default dtype
    at the time of the call. *)
Definition __init__ (dd : dtype) (hidden_size : Z) (eps : option spec_float) : result t :=
  w ← ones dd hidden_size;
  Ok (Build w (default eps_default eps)).

(** What a call returns: a tensor, or the pair of a tensor and the residual. *)
Inductive output := Out (x : tensor) | OutResidual (x residual : tensor).

(** The normalized tensor of a returned value, and the residual if any. *)
Definition output_x (o : output) : tensor :=
  match o with Out x => x | OutResidual x _ => x end.

Definition output_residual (o : output) : option tensor :=
  match o with Out _ => None | OutResidual _ r => Some r end.

(** [_forward(self, x, residual=None)]. *)
Definition _forward (self : t) (x : tensor) (residual : option tensor) : result output :=
  let orig_dtype := t_dtype x in
  let x := to float32 x in
  '(x, residual) ← match residual with
                    | Some residual =>
                        x ← add x (to float32 residual);
                        Ok (x, Some (to orig_dtype x))
                    | None => Ok (x, None)
                    end;
  let variance := mean_lastdim (pow2 x) in
  x ← mul x (rsqrt (add_scalar variance (variance_epsilon self)));
  x ← mul (to orig_dtype x) (weight self);
  match residual with
  | None => Ok (Out x)
  | Some residual => Ok (OutResidual x residual)
  end.

(** The shape of the normalized tensor a call returns, when the shapes of
    its arguments and of the weight can be broadcast together. *)
Definition forward_shape (self : t) (x : tensor) (residual : option tensor)
    : option (list nat) :=
  s ← match residual with
      | Some r => broadcast_shapes (shape x) (shape r)
      | None => Some (shape x)
      end;
  broadcast_shapes s (shape (weight self)).

End RMSNorm.

(** ** The same code over a store of tensor objects

    Python names hold references.  Here tensors and layer instances live in
    a store, every torch call of [_forward] that builds a tensor allocates a
    new object, and [Tensor.to] hands back the very object it was given when
    the dtype already matches. *)

Module Store.

Definition loc := nat.

(** A layer instance: its [weight] attribute refers to a tensor object. *)
Record module_obj := ModuleObj {
  weight_ref : loc;
  eps_attr : spec_float
}.

Record state := State {
  tensors : gmap loc tensor;
  modules : gmap loc module_obj
}.

(** A computation either gets stuck on a reference that is not in the store
    (which no Python program can hold), or ends in a state with a value or a
    raised exception. *)
Definition M (A : Type) : Type := state → option (result A * state).

#[global] Instance M_ret : MRet M := λ A a σ, Some (Ok a, σ).

#[global] Instance M_bind : MBind M := λ A B k m σ,
  match m σ with
  | Some (Ok a, σ') => k a σ'
  | Some (Raise e, σ') => Some (Raise e, σ')
  | None => None
  end.

Definition lift {A} (r : result A) : M A := λ σ, Some (r, σ).

Definition deref (l : loc) : M tensor := λ σ,
  (λ t, (Ok t, σ)) <$> tensors σ !! l.

Definition alloc (t : tensor) : M loc := λ σ,
  let l := fresh (dom (tensors σ)) in
  Some (Ok l, State (<[l:=t]> (tensors σ)) (modules σ)).

Definition getattr {A} (f : module_obj → A) (self : loc) : M A := λ σ,
  (λ o, (Ok (f o), σ)) <$> modules σ !! self.

Definition dtype_ref (x : loc) : M dtype := t ← deref x; mret (t_dtype t).

Definition to_ref (d : dtype) (x : loc) : M loc :=
  t ← deref x;
  if decide (t_dtype t = d) then mret x else alloc (to d t).

Definition unary_ref (op : tensor → tensor) (a : loc) : M loc :=
  t ← deref a; alloc (op t).

Definition binary_ref (op : tensor → tensor → result tensor) (a b : loc) : M loc :=
  ta ← deref a; tb ← deref b; t ← lift (op ta tb); alloc t.

Inductive output_ref := OutRef (x : loc) | OutResidualRef (x residual : loc).

(** [_forward] statement by statement. *)
Definition _forward_refs (self x : loc) (residual : option loc) : M output_ref :=
  orig_dtype ← dtype_ref x;
  x ← to_ref float32 x;
  '(x, residual) ← match residual with
                    | Some residual =>
                        r ← to_ref float32 residual;
                        x ← binary_ref add x r;
                        residual ← to_ref orig_dtype x;
                        mret (x, Some residual)
                    | None => mret (x, None)
                    end;
  sq ← unary_ref pow2 x;
  variance ← unary_ref mean_lastdim sq;
  eps ← getattr eps_attr self;
  ve ← unary_ref (λ t, add_scalar t eps) variance;
  rs ← unary_ref rsqrt ve;
  x ← binary_ref mul x rs;
  xo ← to_ref orig_dtype x;
  w ← getattr weight_ref self;
  x ← binary_ref mul xo w;
  match residual with
  | None => mret (OutRef x)
  | Some residual => mret (OutResidualRef x residual)
  end.

(** A state extends another when it has the same instances and every
    tensor object of the old state, unchanged. *)
Definition extends (σ σ' : state) : Prop :=
  modules σ' = modules σ ∧ tensors σ ⊆ tensors σ'.

(** The value a returned reference stands for. *)
Definition output_at (σ : state) (r : output_ref) : option RMSNorm.output :=
  match r with
  | OutRef l => RMSNorm.Out <$> tensors σ !! l
  | OutResidualRef l lr =>
      o ← tensors σ !! l; r ← tensors σ !! lr; Some (RMSNorm.OutResidual o r)
  end.

Definition output_locs (r : output_ref) : list loc :=
  match r with OutRef l => [l] | OutResidualRef l lr => [l; lr] end.

(** The optional residual argument refers to the tensor [tres], if any. *)
Definition resolves (σ : state) (residual : option loc) (tres : option tensor) : Prop :=
  match residual, tres with
  | Some l, Some t => tensors σ !! l = Some t
  | None, None => True
  | _, _ => False
  end.

(** A computation is framed when every run of it ends in an extension of
    the state it started in. *)
Definition framed {A} (m : M A) : Prop :=
  ∀ σ r σ', m σ = Some (r, σ') → extends σ σ'.

(** Weakest precondition of a computation that does not get stuck. *)
Definition wp {A} (m : M A) (σ : state) (Q : result A → state → Prop) : Prop :=
  match m σ with Some (r, σ') => Q r σ' | None => False end.

End Store.

(** ** The algorithm in the words of its description

    The steps of the reference formula on one row, written independently of
    the tensor code above, against which [_forward] is compared. *)

Module Formula.

(** Conversion of a scalar stored at dtype [a] to dtype [b]. *)
Definition convert (a b : dtype) (v : spec_float) : spec_float :=
  if decide (a = b) then v else cast b v.

(** variance = (sum of squares) / H, at 32 bits. *)
Definition variance (row : list spec_float) : spec_float :=
  fdiv float32
    (foldl (fadd float32) (S754_zero false) ((λ v, fmul float32 v v) <$> row))
    (of_Z float32 (Z.of_nat (length row))).

(** scale = 1 / sqrt(variance + eps), at 32 bits. *)
Definition scale (eps : spec_float) (row : list spec_float) : spec_float :=
  fdiv float32 (of_Z float32 1)
    (fsqrt float32 (fadd float32 (variance row) (cast float32 eps))).

(** x_i * scale at 32 bits. *)
Definition normalized (eps : spec_float) (row : list spec_float) : list spec_float :=
  (λ v, fmul float32 v (scale eps row)) <$> row.

(** weight[i] * downcast(x_i * scale): the normalized value goes back to the
    storage dtype [orig] first; the product with the weight (stored at [wd])
    is then taken at dtype [rt]. *)
Definition weighted (orig wd rt : dtype) (w : list spec_float)
    (n : list spec_float) : list spec_float :=
  zip_with (fmul rt)
    (convert orig rt <$> (convert float32 orig <$> n))
    (convert wd rt <$> w).

Definition output_row (orig wd rt : dtype) (eps : spec_float)
    (w row : list spec_float) : list spec_float :=
  weighted orig wd rt w (normalized eps row).


(** x + residual at 32 bits. *)
Definition fused_add (orig rd : dtype) (x r : list spec_float) : list spec_float :=
  zip_with (fadd float32) (convert orig float32 <$> x) (convert rd float32 <$> r).

(** The data that is normalized: the input at 32 bits, plus the residual
    when one is given. *)
Definition effective_input (x : tensor) (residual : option tensor) : list spec_float :=
  match residual with
  | None => convert (t_dtype x) float32 <$> data x
  | Some r => fused_add (t_dtype x) (t_dtype r) (data x) (data r)
  end.

(** What a call is expected to return on rows of length [n]. *)
Definition reference (self : RMSNorm.t) (x : tensor) (residual : option tensor)
    (n : nat) : RMSNorm.output :=
  let orig := t_dtype x in
  let wd := t_dtype (RMSNorm.weight self) in
  let rt := promote_types orig wd in
  let e := effective_input x residual in
  let out :=
    Tensor rt (shape x)
      (concat (output_row orig wd rt (RMSNorm.variance_epsilon self)
                 (data (RMSNorm.weight self))
               <$> chunks n (numel (removelast (shape x))) e)) in
  match residual with
  | None => RMSNorm.Out out
  | Some _ =>
      RMSNorm.OutResidual out (Tensor orig (shape x) (convert float32 orig <$> e))
  end.

End Formula.

(** ** Concrete layers and inputs *)

Module Examples.
Import RMSNorm.

(** A row of four 2s stored at dtype [d]. *)
Definition twos (d : dtype) : tensor := Tensor d [4] (replicate 4 (of_Z d 2)).

(** [RMSNorm(4)] under torch's default dtype. *)
Definition layer4 : RMSNorm.t :=
  Build (Tensor float32 [4] (replicate 4 (of_Z float32 1))) eps_default.

(** A vector of integers stored at [float16]. *)
Definition half_row (l : list Z) : tensor :=
  Tensor float16 [length l] (of_Z float16 <$> l).

(** A layer with a given weight and the default epsilon. *)
Definition layer_of (w : tensor) : RMSNorm.t := Build w eps_default.

(** A [float32] row with an infinite element, and an all-zero weight. *)
Definition row_with_inf : tensor :=
  Tensor float32 [4]
    [of_Z float32 2; S754_infinity false; of_Z float32 2; of_Z float32 2].

Definition zero_layer4 : RMSNorm.t :=
  Build (Tensor float32 [4] (replicate 4 (S754_zero false))) eps_default.

(** A [float32] column of two rows of length 1, and a single element. *)
Definition column : tensor :=
  Tensor float32 [2; 1] [of_Z float32 2; of_Z float32 3].

Definition single : tensor := Tensor float32 [1] [of_Z float32 2].

(** A store with one [float16] row (object 0), the weight of [layer4]
    (object 1) and the layer itself (instance 0). *)
Definition store0 : Store.state :=
  Store.State {[ 0 := twos float16; 1 := weight layer4 ]}
              {[ 0 := Store.ModuleObj 1 eps_default ]}.

End Examples.

(** ** Rows, batches and signs

    Ways of looking at a tensor, used to state how a call treats the rows of
    a batch. *)

Module Layout.

(** [torch.neg]: the sign of every element flipped. *)
Definition neg (t : tensor) : tensor :=
  Tensor (t_dtype t) (shape t) (SFopp <$> data t).

(** [t.reshape(-1, n)]: the leading dimensions merged into one. *)
Definition as_matrix (n : nat) (t : tensor) : tensor :=
  Tensor (t_dtype t) [numel (removelast (shape t)); n] (data t).

(** Row [b] of a batch of rows of length [n], as a vector. *)
Definition row (n b : nat) (t : tensor) : tensor :=
  Tensor (t_dtype t) [n] (take n (drop (b * n) (data t))).

(** [from] can be expanded to [to_]: position by position the sizes agree
    or the size of [from] is 1. *)
Definition expandable (from to_ : list nat) : Prop :=
  Forall2 (λ m n, m = n ∨ m = 1) from to_.

(** What a call returns is well-formed. *)
Definition wf_output (o : RMSNorm.output) : Prop :=
  match o with
  | RMSNorm.Out x => wf_tensor x
  | RMSNorm.OutResidual x r => wf_tensor x ∧ wf_tensor r
  end.

End Layout.

(** ** More concrete inputs *)

Module MoreExamples.

(** Two rows of four, stored at [float16], as one batch of shape 2 x 4 and
    as a block of shape 1 x 2 x 4. *)
Definition batch : tensor :=
  Tensor float16 [2; 4] (of_Z float16 <$> [1; 2; 3; 4; 5; 6; 7; 8]%Z).

Definition block : tensor :=
  Tensor float16 [1; 2; 4] (of_Z float16 <$> [1; 2; 3; 4; 5; 6; 7; 8]%Z).


(** A row with a NaN. *)
Definition row_with_nan : tensor :=
  Tensor float32 [4]
    [of_Z float32 2; S754_nan; of_Z float32 2; of_Z float32 2].








(** A zero-dimensional [float64] tensor. *)
Definition scalar64 : tensor := Tensor float64 [] [of_Z float64 2].

End MoreExamples.

(** ** [forward]: the dispatch to the fused kernels

    [forward] chooses between the kernels of [vllm._custom_ops] and, for a
    tensor on an HPU, the [FusedRMSNorm] of the Habana framework.  The
    kernels are not part of this file of the repository and are taken as
    parameters; the statements of [forward] itself - the test on the device,
    the view and the in-place addition, the allocation of the output - are
    embedded over a store of tensor objects that also records the device of
    each object.  An object stands for a tensor and its storage. *)

Module Dispatch.

Definition loc := nat.

Record tensor_obj := TensorObj {
  device_type : string;
  value : tensor
}.

Record state := State {
  objects : gmap loc tensor_obj;
  modules : gmap loc Store.module_obj
}.

Inductive exception := TorchError (e : exn) | NameError (name : string).

Inductive outcome (A : Type) := Return (a : A) | Except (e : exception).
Arguments Return {A} a.
Arguments Except {A} e.

(** As in [Store]: [None] is a reference that is not in the store. *)
Definition P (A : Type) : Type := state → option (outcome A * state).

#[global] Instance P_ret : MRet P := λ A a σ, Some (Return a, σ).

#[global] Instance P_bind : MBind P := λ A B k m σ,
  match m σ with
  | Some (Return a, σ') => k a σ'
  | Some (Except e, σ') => Some (Except e, σ')
  | None => None
  end.

Definition raise {A} (e : exception) : P A := λ σ, Some (Except e, σ).

Definition lift_torch {A} (r : result A) : P A := λ σ,
  Some (match r with Ok a => Return a | Raise e => Except (TorchError e) end, σ).

Definition deref (l : loc) : P tensor_obj := λ σ,
  (λ o, (Return o, σ)) <$> objects σ !! l.

Definition alloc (o : tensor_obj) : P loc := λ σ,
  let l := fresh (dom (objects σ)) in
  Some (Return l, State (<[l:=o]> (objects σ)) (modules σ)).

(** An in-place write: the object keeps its identity and its device. *)
Definition write (l : loc) (t : tensor) : P unit := λ σ,
  (λ o, (Return (), State (<[l:=TensorObj (device_type o) t]> (objects σ)) (modules σ)))
  <$> objects σ !! l.

Definition getattr {A} (f : Store.module_obj → A) (self : loc) : P A := λ σ,
  (λ o, (Return (f o), σ)) <$> modules σ !! self.

(** [t.view(s)] of a contiguous tensor: the element count must agree. *)
Definition view (s : list nat) (t : tensor) : result tensor :=
  if decide (numel s = numel (shape t)) then Ok (Tensor (t_dtype t) s (data t))
  else Raise RuntimeError.

(** [a += b], that is [a.add_(b)]: the sum is taken at the promoted dtype
    and stored at the dtype of [a], whose shape it must have. *)
Definition iadd (a b : tensor) : result tensor :=
  t ← add a b;
  if decide (shape t = shape a) then Ok (to (t_dtype a) t) else Raise RuntimeError.

Definition view_ref (x : loc) (s : list nat) : P loc :=
  o ← deref x; t ← lift_torch (view s (value o)); alloc (TensorObj (device_type o) t).

Definition iadd_ref (a b : loc) : P unit :=
  oa ← deref a; ob ← deref b; t ← lift_torch (iadd (value oa) (value ob)); write a t.

(** [torch.empty_like(x)]: a new object of the dtype, shape and device of
    [x]; [uninit n] is whatever [n] elements of fresh memory hold. *)
Definition empty_like (uninit : nat → list spec_float) (x : loc) : P loc :=
  o ← deref x;
  let t := value o in
  alloc (TensorObj (device_type o)
           (Tensor (t_dtype t) (shape t) (uninit (numel (shape t))))).

(** [FusedRMSNorm.apply(x, weight, eps)]. *)
Definition apply_t : Type := loc → loc → spec_float → P loc.

(** The module-level name [FusedRMSNorm] after the import of the module. *)
Inductive global := Unbound | BoundNone | BoundClass (apply : apply_t).

(** Lines 10 to 15: the value of [FusedRMSNorm] and what is printed;
    [habana] is the class the Habana framework provides, if it can be
    imported. *)
Definition import_module (is_hpu : bool) (habana : option apply_t)
    : global * list string :=
  if is_hpu then
    match habana with
    | Some k => (BoundClass k, [])
    | None => (BoundNone, ["Not using HPU fused kernel for RMSNorm"%string])
    end
  else (Unbound, []).

(** The kernels of [vllm._custom_ops]; both write into their first
    arguments and return nothing. *)
Record custom_ops := CustomOps {
  fused_add_rms_norm : loc → loc → loc → spec_float → P unit;
  rms_norm : loc → loc → loc → spec_float → P unit
}.

(** [x.device.type == "hpu" and FusedRMSNorm]: the name is looked up only
    for a tensor on an HPU; a class is true, [None] is false. *)
Definition use_fused (FusedRMSNorm : global) (x : loc) : P (option apply_t) :=
  o ← deref x;
  if decide (device_type o = "hpu"%string) then
    match FusedRMSNorm with
    | Unbound => raise (NameError "FusedRMSNorm")
    | BoundNone => mret None
    | BoundClass k => mret (Some k)
    end
  else mret None.

(** [forward(self, x, residual=None)]. *)
Definition forward (ops : custom_ops) (uninit : nat → list spec_float)
    (FusedRMSNorm : global) (self x : loc) (residual : option loc)
    : P Store.output_ref :=
  match residual with
  | Some residual =>
      fused ← use_fused FusedRMSNorm x;
      match fused with
      | Some apply =>
          ox ← deref x;
          let orig_shape := shape (value ox) in
          or ← deref residual;
          v ← view_ref x (shape (value or));
          iadd_ref residual v;;
          w ← getattr Store.weight_ref self;
          eps ← getattr Store.eps_attr self;
          x ← apply residual w eps;
          xv ← view_ref x orig_shape;
          mret (Store.OutResidualRef xv residual)
      | None =>
          w ← getattr Store.weight_ref self;
          eps ← getattr Store.eps_attr self;
          fused_add_rms_norm ops x residual w eps;;
          mret (Store.OutResidualRef x residual)
      end
  | None =>
      fused ← use_fused FusedRMSNorm x;
      match fused with
      | Some apply =>
          w ← getattr Store.weight_ref self;
          eps ← getattr Store.eps_attr self;
          x ← apply x w eps;
          mret (Store.OutRef x)
      | None =>
          out ← empty_like uninit x;
          w ← getattr Store.weight_ref self;
          eps ← getattr Store.eps_attr self;
          rms_norm ops out x w eps;;
          mret (Store.OutRef out)
      end
  end.

(** A state extends another when it has the same instances and every
    tensor object of the old state, unchanged. *)
Definition extends (σ σ' : state) : Prop :=
  modules σ' = modules σ ∧ objects σ ⊆ objects σ'.

(** A fused kernel that computes what [_forward] computes without a
    residual, into a new object on the device of its input. *)
Definition reference_apply : apply_t := λ x w eps,
  ox ← deref x; ow ← deref w;
  out ← lift_torch (RMSNorm._forward (RMSNorm.Build (value ow) eps) (value ox) None);
  alloc (TensorObj (device_type ox) (RMSNorm.output_x out)).

(** [apply] meets the contract of the reference: wherever [_forward]
    returns, it returns a new object holding the same tensor and changes
    nothing else. *)
Definition implements_reference (apply : apply_t) : Prop :=
  ∀ σ x w eps ox ow o,
    objects σ !! x = Some ox → objects σ !! w = Some ow →
    RMSNorm._forward (RMSNorm.Build (value ow) eps) (value ox) None
    = Ok (RMSNorm.Out o) →
    ∃ l σ', apply x w eps σ = Some (Return l, σ') ∧
            extends σ σ' ∧ (l ∉ dom (objects σ)) ∧
            value <$> (objects σ' !! l) = Some o.

(** Kernels that do nothing, for examples. *)
Definition idle_ops : custom_ops :=
  CustomOps (λ _ _ _ _, mret ()) (λ _ _ _ _, mret ()).

End Dispatch.

Module DispatchExamples.
Import Dispatch.

(** Two [float32] rows (objects 0 and 1), the weight of [layer4] (object 2)
    and the layer (instance 0), on the device [dev]. *)
Definition store_on (dev : string) : state :=
  State {[ 0 := TensorObj dev (Examples.twos float32);
           1 := TensorObj dev (Examples.twos float32);
           2 := TensorObj dev (RMSNorm.weight Examples.layer4) ]}
        {[ 0 := Store.ModuleObj 2 RMSNorm.eps_default ]}.

(** The same with a first row of five elements. *)
Definition store_mismatch : state :=
  State {[ 0 := TensorObj "hpu" (Tensor float32 [5] (replicate 5 (of_Z float32 2)));
           1 := TensorObj "hpu" (Examples.twos float32);
           2 := TensorObj "hpu" (RMSNorm.weight Examples.layer4) ]}
        {[ 0 := Store.ModuleObj 2 RMSNorm.eps_default ]}.

(** Fresh memory full of NaN. *)
Definition uninit_nan (n : nat) : list spec_float := replicate n S754_nan.

End DispatchExamples.

(** * Properties *)

(** ** Lists cut into rows *)

Section Rows.
Context {A : Type}.
Implicit Types (l row : list A) (ls : list (list A)).

Lemma length_chunks k n l : length (chunks k n l) = n.
Proof. revert l; induction n as [|n IH]; intros l; simpl; [done|by rewrite IH]. Qed.

Lemma chunks_uniform k n l :
  length l = n * k → Forall (λ row, length row = k) (chunks k n l).
Proof.
  revert l; induction n as [|n IH]; intros l Hl; simpl; constructor.
  - rewrite length_take; lia.
  - apply IH. rewrite length_drop; lia.
Qed.

Lemma concat_chunks k n l : length l = n * k → concat (chunks k n l) = l.
Proof.
  revert l; induction n as [|n IH]; intros l Hl; simpl.
  - by destruct l.
  - rewrite IH; [apply take_drop|]. rewrite length_drop; lia.
Qed.

Lemma chunks_concat k ls :
  Forall (λ row, length row = k) ls → chunks k (length ls) (concat ls) = ls.
Proof.
  induction 1 as [|row ls Hrow _ IH]; simpl; [done|].
  rewrite take_app_length', drop_app_length' by done. by rewrite IH.
Qed.

Lemma chunks_fmap {B} (f : A → B) k n l :
  chunks k n (f <$> l) = (λ row : list A, f <$> row) <$> chunks k n l.
Proof.
  revert l; induction n as [|n IH]; intros l; simpl; [done|].
  by rewrite <-fmap_take, <-fmap_drop, IH.
Qed.

Lemma chunks_one k l : length l = k → chunks k 1 l = [l].
Proof. intros <-. simpl. by rewrite firstn_all. Qed.

Lemma lookup_chunks k n l r row i :
  chunks k n l !! r = Some row → i < k → row !! i = l !! (r * k + i).
Proof.
  revert l r; induction n as [|n IH]; intros l [|r] Hr Hi; simplify_eq/=.
  - by rewrite lookup_take_lt.
  - rewrite (IH _ _ Hr Hi), lookup_drop. f_equal; lia.
Qed.

Lemma lookup_concat_uniform k ls r row i :
  Forall (λ row, length row = k) ls → ls !! r = Some row → i < k →
  concat ls !! (r * k + i) = row !! i.
Proof.
  intros Hall; revert r; induction Hall as [|row' ls Hrow _ IH];
    intros [|r] Hr Hi; simplify_eq/=.
  - rewrite lookup_app_l; [done|lia].
  - rewrite lookup_app_r by lia. rewrite <-(IH r Hr Hi). f_equal; lia.
Qed.

Lemma concat_replicate_concat n m l :
  concat (replicate n (concat (replicate m l))) = concat (replicate (n * m) l).
Proof.
  induction n as [|n IH]; simpl; [done|].
  by rewrite replicate_add, concat_app, IH.
Qed.

Lemma concat_fmap_concat {B} (f : A → list B) ls :
  concat ((λ row, concat (f <$> row)) <$> ls) = concat (f <$> concat ls).
Proof.
  induction ls as [|row ls IH]; [done|].
  rewrite fmap_cons. cbn [concat]. by rewrite fmap_app, concat_app, IH.
Qed.

End Rows.

Section ZipRows.
Context {A B C : Type} (f : A → B → C).

Lemma zip_with_replicate_row (row : list A) (v : B) :
  zip_with f row (replicate (length row) v) = (λ a, f a v) <$> row.
Proof. induction row as [|a row IH]; simpl; [done|by rewrite IH]. Qed.

(** A row of shared values against every row. *)
Lemma zip_with_concat_shared (ls : list (list A)) (w : list B) :
  Forall (λ row, length row = length w) ls →
  zip_with f (concat ls) (concat (replicate (length ls) w))
  = concat ((λ row, zip_with f row w) <$> ls).
Proof.
  induction 1 as [|row ls Hrow _ IH]; simpl; [done|].
  by rewrite zip_with_app, IH.
Qed.

(** One value per row. *)
Lemma zip_with_concat_per_row k (ls : list (list A)) (vs : list B) :
  Forall (λ row, length row = k) ls → length vs = length ls →
  zip_with f (concat ls) (concat ((λ v, replicate k v) <$> vs))
  = concat (zip_with (λ row v, (λ a, f a v) <$> row) ls vs).
Proof.
  intros Hall; revert vs; induction Hall as [|row ls Hrow _ IH];
    intros [|v vs] Hvs; simplify_eq/=; [done|].
  rewrite zip_with_app by (by rewrite length_replicate).
  by rewrite zip_with_replicate_row, IH.
Qed.

End ZipRows.

Lemma zip_with_fmap_self {A B C} (f : list A → B → C) (g : list A → B) (ls : list (list A)) :
  zip_with f ls (g <$> ls) = (λ row, f row (g row)) <$> ls.
Proof. induction ls as [|row ls IH]; csimpl; [done|by rewrite IH]. Qed.

(** ** Shapes and broadcasting *)

Section Broadcast.
Implicit Types (s lead : list nat).

Lemma numel_app s1 s2 : numel (s1 ++ s2) = numel s1 * numel s2.
Proof. induction s1 as [|m s1 IH]; simpl; [lia|]. rewrite IH; lia. Qed.

Lemma numel_snoc lead n : numel (lead ++ [n]) = numel lead * n.
Proof. rewrite numel_app; simpl; lia. Qed.

Lemma numel_ones n : numel (replicate n 1) = 1.
Proof. induction n as [|n IH]; simpl; [done|]. rewrite IH; lia. Qed.

Lemma broadcast_dim_refl m : broadcast_dim m m = Some m.
Proof. unfold broadcast_dim. by rewrite decide_True. Qed.

Lemma broadcast_dim_one_r m : broadcast_dim m 1 = Some m.
Proof. unfold broadcast_dim. repeat case_decide; congruence. Qed.

Lemma broadcast_dim_one_l m : broadcast_dim 1 m = Some m.
Proof. unfold broadcast_dim. repeat case_decide; congruence. Qed.

Lemma broadcast_dim_None m n :
  broadcast_dim m n = None ↔ m ≠ n ∧ m ≠ 1 ∧ n ≠ 1.
Proof.
  unfold broadcast_dim.
  destruct (decide (m = n)), (decide (m = 1)), (decide (n = 1)); split;
    first [done | by intros (? & ? & ?)].
Qed.

Lemma broadcast_aligned_refl s : broadcast_aligned s s = Some s.
Proof.
  induction s as [|m s IH]; simpl; [done|].
  by rewrite broadcast_dim_refl, IH.
Qed.

Lemma broadcast_aligned_ones_r s :
  broadcast_aligned s (replicate (length s) 1) = Some s.
Proof.
  induction s as [|m s IH]; simpl; [done|].
  by rewrite broadcast_dim_one_r, IH.
Qed.

Lemma broadcast_aligned_app a a' b b' :
  length a = length b →
  broadcast_aligned (a ++ a') (b ++ b')
  = sa ← broadcast_aligned a b; sb ← broadcast_aligned a' b'; Some (sa ++ sb).
Proof.
  revert b; induction a as [|m a IH]; intros [|n b] Hlen; simplify_eq/=.
  - by destruct (broadcast_aligned a' b').
  - rewrite IH by done. destruct (broadcast_dim m n); simpl; [|done].
    destruct (broadcast_aligned a b); simpl; [|done].
    by destruct (broadcast_aligned a' b').
Qed.

Lemma pad_shape_id s : pad_shape (length s) s = s.
Proof. unfold pad_shape. by rewrite Nat.sub_diag. Qed.

Lemma broadcast_shapes_same_rank a b :
  length a = length b → broadcast_shapes a b = broadcast_aligned a b.
Proof.
  intros Hlen. unfold broadcast_shapes. rewrite <-Hlen, Nat.max_id.
  rewrite pad_shape_id. by rewrite Hlen, pad_shape_id.
Qed.

Lemma broadcast_shapes_refl s : broadcast_shapes s s = Some s.
Proof. rewrite broadcast_shapes_same_rank by done. apply broadcast_aligned_refl. Qed.

Lemma keepdim_shape_snoc lead n : keepdim_shape (lead ++ [n]) = lead ++ [1].
Proof.
  unfold keepdim_shape. rewrite removelast_last.
  by destruct lead.
Qed.

Lemma last_dim_snoc lead n : last_dim (lead ++ [n]) = n.
Proof. unfold last_dim. apply last_last. Qed.

Lemma shape_snoc_or_nil s : s = [] ∨ ∃ lead n, s = lead ++ [n].
Proof.
  destruct s as [|m s] using rev_ind; [by left|right; eauto].
Qed.

Lemma broadcast_shapes_keepdim s : broadcast_shapes s (keepdim_shape s) = Some s.
Proof.
  destruct (shape_snoc_or_nil s) as [->|(lead & n & ->)]; [done|].
  rewrite keepdim_shape_snoc.
  rewrite broadcast_shapes_same_rank by (by rewrite !length_app).
  rewrite broadcast_aligned_app by done.
  rewrite broadcast_aligned_refl. simpl. by rewrite broadcast_dim_one_r.
Qed.

Lemma pad_shape_row lead n :
  pad_shape (length (lead ++ [n])) [n] = replicate (length lead) 1 ++ [n].
Proof.
  unfold pad_shape. rewrite length_app. simpl.
  by replace (length lead + 1 - 1) with (length lead) by lia.
Qed.

Lemma broadcast_shapes_row lead m n :
  broadcast_shapes (lead ++ [m]) [n] = d ← broadcast_dim m n; Some (lead ++ [d]).
Proof.
  unfold broadcast_shapes.
  replace (length (lead ++ [m]) `max` length [n]) with (length (lead ++ [m]))
    by (rewrite length_app; simpl; lia).
  rewrite pad_shape_id. rewrite length_app. simpl. unfold pad_shape. simpl.
  replace (length lead + 1 - 1) with (length lead) by lia.
  rewrite broadcast_aligned_app by (by rewrite length_replicate).
  rewrite broadcast_aligned_ones_r. simpl.
  by destruct (broadcast_dim m n).
Qed.

End Broadcast.

Section Expand.
Context {A : Type}.
Implicit Types (d v w : list A) (s lead : list nat).

Lemma expand_id s d : length d = numel s → expand s s d = d.
Proof.
  revert d; induction s as [|m s IH]; intros d Hd; simpl; [done|].
  rewrite decide_True by done.
  rewrite <-(concat_chunks (numel s) m d) at 2 by done.
  f_equal. rewrite <-(list_fmap_id (chunks _ _ _)) at 2.
  apply Forall_fmap_ext.
  eapply Forall_impl; [by apply chunks_uniform|]. intros row Hrow. by apply IH.
Qed.

(** A [keepdim] result against the shape it was reduced from: the value of
    each row is repeated along the row. *)
Lemma expand_keepdim lead n v :
  length v = numel lead →
  expand (lead ++ [1]) (lead ++ [n]) v = concat ((λ x, replicate n x) <$> v).
Proof.
  revert v; induction lead as [|m lead IH]; intros v Hv; simpl in *.
  - destruct v as [|x [|??]]; simplify_eq/=.
    case_decide; subst; simpl; [done|]. rewrite app_nil_r.
    clear. induction n as [|n IH]; simpl; [done|by rewrite IH].
  - rewrite decide_True by done. rewrite numel_snoc, Nat.mul_1_r.
    rewrite <-(concat_chunks (numel lead) m v) at 2 by done.
    rewrite <-concat_fmap_concat. f_equal.
    apply Forall_fmap_ext.
    eapply Forall_impl; [by apply chunks_uniform|]. intros row Hrow. by apply IH.
Qed.

(** A one-dimensional tensor against a batch of rows: the whole vector is
    repeated for every row. *)
Lemma expand_row lead n w :
  length w = n →
  expand (replicate (length lead) 1 ++ [n]) (lead ++ [n]) w
  = concat (replicate (numel lead) w).
Proof.
  intros Hw. induction lead as [|m lead IH].
  - cbn [length replicate app numel foldr concat].
    rewrite expand_id by (simpl; lia). by rewrite app_nil_r.
  - cbn [length replicate app expand numel foldr].
    fold (numel (replicate (length lead) 1 ++ [n])). fold (numel lead).
    rewrite numel_snoc, numel_ones, Nat.mul_1_l.
    rewrite <-concat_replicate_concat, <-IH.
    destruct (decide (1 = m)) as [<-|]; [|done].
    by rewrite chunks_one.
Qed.

End Expand.


(** ** Tensor operations on matching shapes *)

Section Ops.
Import Formula.
Implicit Types (a b w t : tensor) (d : dtype) (lead : list nat).

Lemma promote_types_idemp d : promote_types d d = d.
Proof. by destruct d. Qed.

Lemma to_eq d t : to d t = Tensor d (shape t) (convert (t_dtype t) d <$> data t).
Proof.
  unfold to, convert. destruct t as [dt s l]; simpl.
  case_decide; [subst|done]. by rewrite list_fmap_id.
Qed.

Lemma data_to d t : data (to d t) = convert (t_dtype t) d <$> data t.
Proof. by rewrite to_eq. Qed.

Lemma shape_to d t : shape (to d t) = shape t.
Proof. by rewrite to_eq. Qed.

Lemma t_dtype_to d t : t_dtype (to d t) = d.
Proof. by rewrite to_eq. Qed.

Lemma wf_to d t : wf_tensor t → wf_tensor (to d t).
Proof. unfold wf_tensor. by rewrite to_eq; simpl; rewrite length_fmap. Qed.

Lemma result_type_same_shape a b :
  shape a = shape b → result_type a b = promote_types (t_dtype a) (t_dtype b).
Proof. unfold result_type. intros <-. by destruct (shape a). Qed.

Lemma result_type_snoc a b lead n lead' n' :
  shape a = lead ++ [n] → shape b = lead' ++ [n'] →
  result_type a b = promote_types (t_dtype a) (t_dtype b).
Proof.
  unfold result_type. intros -> ->. by destruct lead, lead'.
Qed.

(** Equal shapes: the operation is taken position by position. *)
Lemma binary_op_same_shape f a b :
  shape a = shape b → wf_tensor a → wf_tensor b →
  let rt := promote_types (t_dtype a) (t_dtype b) in
  binary_op f a b
  = Ok (Tensor rt (shape a)
          (zip_with (f rt) (convert (t_dtype a) rt <$> data a)
                           (convert (t_dtype b) rt <$> data b))).
Proof.
  intros Hs Ha Hb rt. unfold binary_op.
  rewrite <-Hs, broadcast_shapes_refl, (result_type_same_shape a b Hs).
  fold rt. rewrite pad_shape_id, !data_to.
  rewrite !expand_id; [done|..]; rewrite length_fmap; [by rewrite Hs|done].
Qed.

(** A [keepdim] reduction against its source: one value per row. *)
Lemma binary_op_keepdim f a b lead n :
  shape a = lead ++ [n] → shape b = lead ++ [1] →
  wf_tensor a → wf_tensor b →
  let rt := promote_types (t_dtype a) (t_dtype b) in
  binary_op f a b
  = Ok (Tensor rt (shape a)
          (concat (zip_with (λ row v, (λ x, f rt x v) <$> row)
                     (chunks n (numel lead) (convert (t_dtype a) rt <$> data a))
                     (convert (t_dtype b) rt <$> data b)))).
Proof.
  intros Hsa Hsb Ha Hb rt. unfold binary_op.
  rewrite (result_type_snoc a b _ _ _ _ Hsa Hsb). fold rt.
  rewrite Hsa, Hsb.
  rewrite broadcast_shapes_same_rank by (by rewrite !length_app).
  rewrite broadcast_aligned_app by done.
  rewrite broadcast_aligned_refl. simpl. rewrite broadcast_dim_one_r. simpl.
  rewrite pad_shape_id.
  replace (length (lead ++ [n])) with (length (lead ++ [1]))
    by (by rewrite !length_app).
  rewrite pad_shape_id. rewrite !data_to.
  unfold wf_tensor in *. rewrite Hsa, numel_snoc in Ha.
  rewrite Hsb, numel_snoc, Nat.mul_1_r in Hb.
  rewrite expand_id by (by rewrite length_fmap, numel_snoc).
  rewrite expand_keepdim by (by rewrite length_fmap).
  f_equal. f_equal.
  rewrite <-(concat_chunks n (numel lead) (convert (t_dtype a) rt <$> data a)) at 1
    by (by rewrite length_fmap).
  apply zip_with_concat_per_row.
  - apply chunks_uniform. by rewrite length_fmap.
  - by rewrite length_fmap, length_chunks.
Qed.

(** A vector against a batch of rows: the vector meets every row. *)
Lemma binary_op_row f a w lead n :
  shape a = lead ++ [n] → shape w = [n] →
  wf_tensor a → wf_tensor w →
  let rt := promote_types (t_dtype a) (t_dtype w) in
  binary_op f a w
  = Ok (Tensor rt (shape a)
          (concat ((λ row, zip_with (f rt) row (convert (t_dtype w) rt <$> data w))
                     <$> chunks n (numel lead) (convert (t_dtype a) rt <$> data a)))).
Proof.
  intros Hsa Hsw Ha Hw rt. unfold binary_op.
  rewrite (result_type_snoc a w lead n [] n Hsa Hsw). fold rt.
  rewrite Hsa, Hsw. rewrite broadcast_shapes_row, broadcast_dim_refl. simpl.
  rewrite pad_shape_id, pad_shape_row. rewrite !data_to.
  unfold wf_tensor in *. rewrite Hsa, numel_snoc in Ha.
  rewrite Hsw in Hw. simpl in Hw. rewrite Nat.mul_1_r in Hw.
  rewrite expand_id by (by rewrite length_fmap, numel_snoc).
  rewrite expand_row by (by rewrite length_fmap).
  f_equal. f_equal.
  rewrite <-(concat_chunks n (numel lead) (convert (t_dtype a) rt <$> data a)) at 1
    by (by rewrite length_fmap).
  rewrite <-(length_chunks n (numel lead) (convert (t_dtype a) rt <$> data a)) at 2.
  apply zip_with_concat_shared.
  eapply Forall_impl; [apply chunks_uniform; by rewrite length_fmap|].
  intros row Hrow. simpl in *. by rewrite length_fmap, Hw.
Qed.

End Ops.


(** ** [_forward] against the formula *)

Section Forward.
Import Formula RMSNorm.
Implicit Types (x r : tensor) (self : RMSNorm.t) (lead : list nat).

Lemma convert_same d (l : list spec_float) : convert d d <$> l = l.
Proof.
  rewrite <-(list_fmap_id l) at 2. apply list_fmap_ext. intros ? v _.
  unfold convert. by rewrite decide_True.
Qed.

Lemma normalized_length eps row : length (normalized eps row) = length row.
Proof. unfold normalized. by rewrite length_fmap. Qed.

Lemma bind_Ok_inv {A B C} (m : result A) (k : A → result B) (k' : B → result C) v :
  m ≫= k = Ok v → (m ≫= λ a, k a ≫= k') = k' v.
Proof.
  destruct m as [a|e]; unfold mbind, result_bind; [|done]. by intros ->.
Qed.

(** The reduction and the scaling, row by row. *)
Lemma scale_rows eps lead n (e : list spec_float) :
  length e = numel lead * n →
  let x := Tensor float32 (lead ++ [n]) e in
  mul x (rsqrt (add_scalar (mean_lastdim (pow2 x)) eps))
  = Ok (Tensor float32 (lead ++ [n])
          (concat (normalized eps <$> chunks n (numel lead) e))).
Proof.
  intros He x. unfold mul.
  rewrite (binary_op_keepdim _ _ _ lead n); simpl.
  - rewrite !convert_same. f_equal. f_equal. f_equal.
    unfold rows; simpl. rewrite last_dim_snoc, removelast_last.
    rewrite chunks_fmap, <-!list_fmap_compose.
    rewrite zip_with_fmap_self. apply list_fmap_ext. intros _ row _.
    unfold normalized, scale, variance, rsqrt_scalar, row_mean, row_sum; simpl.
    by rewrite length_fmap.
  - done.
  - by rewrite keepdim_shape_snoc.
  - unfold wf_tensor; simpl. by rewrite numel_snoc.
  - unfold wf_tensor; simpl. rewrite keepdim_shape_snoc, numel_snoc, Nat.mul_1_r.
    rewrite !length_fmap. unfold rows; simpl.
    by rewrite length_chunks, removelast_last.
Qed.

(** Lines 45 to 47 on a 32-bit tensor whose rows have the length of the
    weight. *)
Lemma weight_rows self orig lead n (e : list spec_float) :
  length e = numel lead * n →
  shape (weight self) = [n] → wf_tensor (weight self) →
  let x := Tensor float32 (lead ++ [n]) e in
  let wd := t_dtype (weight self) in
  let rt := promote_types orig wd in
  (x' ← mul x (rsqrt (add_scalar (mean_lastdim (pow2 x)) (variance_epsilon self)));
   mul (to orig x') (weight self))
  = Ok (Tensor rt (lead ++ [n])
          (concat (output_row orig wd rt (variance_epsilon self) (data (weight self))
                   <$> chunks n (numel lead) e))).
Proof.
  intros He Hsw Hw x wd rt. subst x. rewrite scale_rows by done.
  change (Ok ?t ≫= ?k) with (k t). cbv beta.
  set (ls := normalized _ <$> _).
  assert (Hls : Forall (λ row, length row = n) ls).
  { apply Forall_fmap. eapply Forall_impl; [by apply chunks_uniform|].
    intros row Hrow; simpl. by rewrite normalized_length. }
  assert (Hlen : length ls = numel lead)
    by (unfold ls; by rewrite length_fmap, length_chunks).
  unfold mul. rewrite (binary_op_row _ _ _ lead n); rewrite ?shape_to; try done.
  - rewrite ?t_dtype_to, ?shape_to, ?data_to; simpl. fold wd rt.
    f_equal. f_equal. f_equal.
    assert (Hch : chunks n (numel lead) (concat ls) = ls)
      by (rewrite <-Hlen; by apply chunks_concat).
    rewrite !chunks_fmap, Hch.
    unfold ls. rewrite <-!list_fmap_compose. by apply list_fmap_ext.
  - apply wf_to. unfold wf_tensor; simpl. rewrite numel_snoc, <-Hlen.
    rewrite length_concat.
    clear -Hls. induction Hls as [|row ls Hr _ IH]; simpl; [done|]. lia.
Qed.

(** [_forward] on a batch of rows of the weight's length, with or without a
    residual of the input's shape. *)
Lemma forward_reference self x residual lead n :
  shape x = lead ++ [n] → wf_tensor x →
  (∀ r, residual = Some r → shape r = shape x ∧ wf_tensor r) →
  shape (weight self) = [n] → wf_tensor (weight self) →
  _forward self x residual = Ok (reference self x residual n).
Proof.
  intros Hsx Hx Hres Hsw Hw. unfold _forward, reference.
  assert (He : length (effective_input x residual) = numel lead * n).
  { unfold wf_tensor in Hx. rewrite Hsx, numel_snoc in Hx.
    destruct residual as [r|]; simpl.
    - destruct (Hres r eq_refl) as [Hsr Hr]. unfold wf_tensor in Hr.
      rewrite Hsr, Hsx, numel_snoc in Hr.
      unfold fused_add. rewrite length_zip_with, !length_fmap. lia.
    - by rewrite length_fmap. }
  rewrite Hsx, removelast_last.
  destruct residual as [r|]; simpl.
  - destruct (Hres r eq_refl) as [Hsr Hr].
    unfold add. rewrite binary_op_same_shape;
      rewrite ?shape_to, ?t_dtype_to; try done; try (by apply wf_to).
    simpl. rewrite !data_to, !convert_same, Hsx.
    change (Ok ?t ≫= ?k) with (k t). cbv beta.
    rewrite (bind_Ok_inv _ _ _ _ (weight_rows self (t_dtype x) lead n _ He Hsw Hw)).
    by rewrite to_eq.
  - rewrite to_eq, Hsx. change (Ok ?t ≫= ?k) with (k t). cbv beta.
    by rewrite (bind_Ok_inv _ _ _ _ (weight_rows self (t_dtype x) lead n _ He Hsw Hw)).
Qed.

End Forward.


(** ** Elements of the output *)

Section Elements.
Import Formula RMSNorm.
Implicit Types (x r : tensor) (self : RMSNorm.t) (lead : list nat).

Lemma output_row_length orig wd rt eps (w row : list spec_float) :
  length row = length w → length (output_row orig wd rt eps w row) = length w.
Proof.
  intros Hlen. unfold output_row, weighted, normalized.
  rewrite length_zip_with, !length_fmap. lia.
Qed.

Lemma output_row_lookup orig wd rt eps (w row : list spec_float) i xi wi :
  row !! i = Some xi → w !! i = Some wi →
  output_row orig wd rt eps w row !! i
  = Some (fmul rt
            (convert orig rt (convert float32 orig (fmul float32 xi (scale eps row))))
            (convert wd rt wi)).
Proof.
  intros Hx Hw. unfold output_row, weighted, normalized.
  rewrite lookup_zip_with, !list_lookup_fmap, Hx, Hw. done.
Qed.

(** Position [b * n + i] of the output is position [i] of its row [b]. *)
Lemma output_lookup orig wd rt eps (w e : list spec_float) n m b i row :
  length e = m * n → length w = n →
  chunks n m e !! b = Some row → i < n →
  concat (output_row orig wd rt eps w <$> chunks n m e) !! (b * n + i)
  = output_row orig wd rt eps w row !! i.
Proof.
  intros He Hw Hb Hi.
  apply lookup_concat_uniform; [|by rewrite list_lookup_fmap, Hb|done].
  apply Forall_fmap. eapply Forall_impl; [by apply chunks_uniform|].
  intros row' Hrow'. simpl. rewrite output_row_length; congruence.
Qed.

Lemma rows_to_float32 x lead n :
  shape x = lead ++ [n] →
  rows (to float32 x)
  = chunks n (numel lead) (convert (t_dtype x) float32 <$> data x).
Proof.
  intros Hs. unfold rows. by rewrite shape_to, data_to, Hs, last_dim_snoc, removelast_last.
Qed.

Lemma wf_snoc x lead n :
  shape x = lead ++ [n] → wf_tensor x → length (data x) = numel lead * n.
Proof. unfold wf_tensor. intros ->. by rewrite numel_snoc. Qed.

Lemma wf_vector w n : shape w = [n] → wf_tensor w → length (data w) = n.
Proof. unfold wf_tensor. intros ->. simpl. lia. Qed.

End Elements.

Section Claims.
Import Formula RMSNorm.
Implicit Types (x r : tensor) (self : RMSNorm.t) (lead : list nat).

(** C1, as the claim states it, fails on the storage precision of the
    output: a [float16] input given to a layer whose weight is [float32]
    (what [__init__] builds under torch's default dtype) comes back as
    [float32]. *)
Lemma forward_output_dtype_counterexample :
  __init__ float32 4 None = Ok Examples.layer4 ∧
  ∃ o, _forward Examples.layer4 (Examples.twos float16) None = Ok (Out o) ∧
       t_dtype (Examples.twos float16) = float16 ∧ t_dtype o = float32.
Proof. split; [done|]. eexists. by vm_compute. Qed.

(** C1 (amended): for an input [x] whose rows have the length [n] of the
    weight vector and no residual, [_forward] works on [x] converted to
    [float32] (32 bits), takes per row variance = (sum of squares) / n and
    scale = 1 / sqrt(variance + eps), multiplies the row by the scale at
    [float32], and returns an output of the shape of the input whose dtype
    is the promotion of the input's and the weight's dtypes, hence the
    input's own dtype when the weight is stored at it.  Element [i] of row
    [b] equals weight[i] * downcast(x_i * scale), the downcast being to the
    input's dtype and the product taken at the output's dtype. *)
Theorem forward_no_residual self x lead n :
  shape x = lead ++ [n] → wf_tensor x →
  shape (weight self) = [n] → wf_tensor (weight self) →
  let orig := t_dtype x in
  let wd := t_dtype (weight self) in
  let eps := variance_epsilon self in
  ∃ o, _forward self x None = Ok (Out o) ∧
    shape o = shape x ∧
    t_dtype o = promote_types orig wd ∧
    (wd = orig → t_dtype o = orig) ∧
    32 ≤ itemsize_bits (t_dtype (to float32 x)) ∧
    ∀ b i row xi wi,
      rows (to float32 x) !! b = Some row → row !! i = Some xi →
      data (weight self) !! i = Some wi →
      variance row
        = fdiv float32
            (foldl (fadd float32) (S754_zero false) ((λ v, fmul float32 v v) <$> row))
            (of_Z float32 (Z.of_nat n)) ∧
      scale eps row
        = fdiv float32 (of_Z float32 1)
            (fsqrt float32 (fadd float32 (variance row) (cast float32 eps))) ∧
      data o !! (b * n + i)
        = Some (fmul (t_dtype o)
                  (convert orig (t_dtype o)
                     (convert float32 orig (fmul float32 xi (scale eps row))))
                  (convert wd (t_dtype o) wi)).
Proof.
  intros Hsx Hx Hsw Hw orig wd eps.
  eexists. split; [by apply (forward_reference self x None lead n)|].
  simpl. rewrite t_dtype_to.
  split; [done|]. split; [done|].
  split; [intros Heq; subst wd orig; rewrite Heq; apply promote_types_idemp|].
  split; [simpl; lia|].
  intros b i row xi wi Hrow Hxi Hwi.
  rewrite (rows_to_float32 x lead n Hsx) in Hrow.
  pose proof (wf_snoc x lead n Hsx Hx) as Hlen.
  pose proof (wf_vector _ n Hsw Hw) as Hlenw.
  split; [|split; [done|]].
  - unfold variance. do 3 f_equal.
    pose proof (chunks_uniform n (numel lead)
                  (convert (t_dtype x) float32 <$> data x)) as Hall.
    rewrite length_fmap in Hall. specialize (Hall Hlen).
    apply list_elem_of_lookup_2 in Hrow.
    by apply (proj1 (Forall_forall _ _) Hall).
  - rewrite Hsx, removelast_last.
    rewrite (output_lookup _ _ _ _ _ _ n (numel lead) b i row);
      [by apply output_row_lookup|by rewrite length_fmap|done..|].
    apply lookup_lt_Some in Hwi. by rewrite Hlenw in Hwi.
Qed.

Lemma forward_no_residual_witness :
  shape (Examples.twos float32) = [] ++ [4] ∧ wf_tensor (Examples.twos float32) ∧
  shape (weight Examples.layer4) = [4] ∧ wf_tensor (weight Examples.layer4) ∧
  ∃ o, _forward Examples.layer4 (Examples.twos float32) None = Ok (Out o) ∧
       shape o = [4] ∧ t_dtype o = float32.
Proof.
  repeat split; try reflexivity.
  destruct (forward_no_residual Examples.layer4 (Examples.twos float32) [] 4)
    as (o & Ho & Hs & Hd & _); try reflexivity.
  exists o. repeat split; assumption.
Defined.

End Claims.


Section ResidualClaims.
Import Formula RMSNorm.
Implicit Types (x r : tensor) (self : RMSNorm.t) (lead : list nat).

Lemma fused_add_lookup dx dr (xs rs : list spec_float) k xv rv :
  xs !! k = Some xv → rs !! k = Some rv →
  fused_add dx dr xs rs !! k
  = Some (fadd float32 (convert dx float32 xv) (convert dr float32 rv)).
Proof.
  intros Hx Hr. unfold fused_add.
  by rewrite lookup_zip_with, !list_lookup_fmap, Hx, Hr.
Qed.

(** Every element of the output, with or without a residual. *)
Lemma forward_elements self x residual lead n :
  shape x = lead ++ [n] → wf_tensor x →
  (∀ r, residual = Some r → shape r = shape x ∧ wf_tensor r) →
  shape (weight self) = [n] → wf_tensor (weight self) →
  let orig := t_dtype x in
  let wd := t_dtype (weight self) in
  let rt := promote_types orig wd in
  let out := reference self x residual n in
  _forward self x residual = Ok out ∧
  shape (output_x out) = shape x ∧ t_dtype (output_x out) = rt ∧
  ∀ b i row xi wi,
    chunks n (numel lead) (effective_input x residual) !! b = Some row →
    row !! i = Some xi → data (weight self) !! i = Some wi →
    data (output_x out) !! (b * n + i)
    = Some (fmul rt
              (convert orig rt
                 (convert float32 orig (fmul float32 xi (scale (variance_epsilon self) row))))
              (convert wd rt wi)).
Proof.
  intros Hsx Hx Hres Hsw Hw orig wd rt out.
  split; [by apply (forward_reference self x residual lead n)|].
  assert (He : length (effective_input x residual) = numel lead * n).
  { pose proof (wf_snoc x lead n Hsx Hx) as Hlen.
    destruct residual as [r|]; simpl; [|by rewrite length_fmap].
    destruct (Hres r eq_refl) as [Hsr Hr].
    rewrite <-Hsr in Hsx. pose proof (wf_snoc r lead n Hsx Hr).
    unfold fused_add. rewrite length_zip_with, !length_fmap. lia. }
  pose proof (wf_vector _ n Hsw Hw) as Hlenw.
  assert (Hdata : data (output_x out)
            = concat (output_row orig wd rt (variance_epsilon self) (data (weight self))
                      <$> chunks n (numel lead) (effective_input x residual))).
  { subst out. unfold reference. rewrite Hsx, removelast_last.
    by destruct residual. }
  split; [by subst out; destruct residual|].
  split; [by subst out; destruct residual|].
  intros b i row xi wi Hrow Hxi Hwi. rewrite Hdata.
  rewrite (output_lookup _ _ _ _ _ _ n (numel lead) b i row);
    [by apply output_row_lookup|done..|].
  apply lookup_lt_Some in Hwi. by rewrite Hlenw in Hwi.
Qed.

(** C2: when a residual of the input's shape is supplied, [_forward] adds it
    to the input at [float32], returns as updated residual that sum converted
    back to the input's dtype, and normalizes the rows of the [float32] sum
    itself, not those of the converted residual. *)
Theorem forward_with_residual self x r lead n :
  shape x = lead ++ [n] → wf_tensor x →
  shape r = shape x → wf_tensor r →
  shape (weight self) = [n] → wf_tensor (weight self) →
  let orig := t_dtype x in
  let wd := t_dtype (weight self) in
  let sum := fused_add orig (t_dtype r) (data x) (data r) in
  ∃ o res, _forward self x (Some r) = Ok (OutResidual o res) ∧
    (∀ k xv rv, data x !! k = Some xv → data r !! k = Some rv →
       sum !! k = Some (fadd float32 (convert orig float32 xv)
                                     (convert (t_dtype r) float32 rv))) ∧
    t_dtype res = orig ∧ shape res = shape x ∧
    data res = convert float32 orig <$> sum ∧
    shape o = shape x ∧
    data o = concat (output_row orig wd (promote_types orig wd)
                       (variance_epsilon self) (data (weight self))
                     <$> chunks n (numel lead) sum).
Proof.
  intros Hsx Hx Hsr Hr Hsw Hw orig wd sum.
  do 2 eexists. split.
  { apply (forward_reference self x (Some r) lead n); try done.
    by intros ? [= <-]. }
  split; [intros; by apply fused_add_lookup|].
  simpl. by rewrite Hsx, removelast_last.
Qed.

Lemma forward_with_residual_witness :
  ∃ o res,
    _forward Examples.layer4 (Examples.twos float16) (Some (Examples.twos float16))
    = Ok (OutResidual o res) ∧
    t_dtype res = float16 ∧ shape res = [4].
Proof.
  destruct (forward_with_residual Examples.layer4 (Examples.twos float16)
              (Examples.twos float16) [] 4)
    as (o & res & Hcall & _ & Hd & Hs & _); try reflexivity.
  exists o, res. split; [exact Hcall|]. split; [exact Hd|exact Hs].
Defined.

(** The rows that are normalized are those of the wide sum: normalizing the
    converted residual instead gives another output. *)
Lemma residual_sum_not_downcast :
  let x := Examples.half_row [2048; 0; 0; 0]%Z in
  let r := Examples.half_row [1; 3; 5; 7]%Z in
  let self := Examples.layer_of (Examples.half_row [1; 1; 1; 1]%Z) in
  ∃ o res, _forward self x (Some r) = Ok (OutResidual o res) ∧
    data o ≠ output_row float16 float16 float16 eps_default (data (weight self))
               (convert float16 float32 <$> data res).
Proof. do 2 eexists. split; [by vm_compute|]. by vm_compute. Qed.




End ResidualClaims.


Section WeightClaims.
Import Formula RMSNorm.
Implicit Types (x r : tensor) (self : RMSNorm.t) (lead : list nat).




Lemma fmul_zero_r d p s :
  is_zero (fmul d p (S754_zero s)) = is_finite p ∧
  is_nan (fmul d p (S754_zero s)) = negb (is_finite p).
Proof. by destruct p. Qed.

Lemma convert_zero a b v : is_zero v = true → convert a b v = v.
Proof. destruct v; try done. intros _. unfold convert. by case_decide. Qed.

(** C7, as the claim states it, fails where the normalized value is not
    finite: with an all-zero weight and default epsilon, the row
    2, inf, 2, 2 gives 0, NaN, 0, 0. *)
Lemma zero_weight_counterexample :
  Forall (λ w, is_zero w = true) (data (weight Examples.zero_layer4)) ∧
  ∃ o, _forward Examples.zero_layer4 Examples.row_with_inf None = Ok (Out o) ∧
       data o = [S754_zero false; S754_nan; S754_zero false; S754_zero false] ∧
       ¬ Forall (λ v, is_zero v = true) (data o).
Proof.
  split; [by repeat constructor|]. eexists. split; [by vm_compute|].
  split; [done|]. intros Hall. by inversion Hall as [|?? _ Hall']; inversion Hall'.
Qed.

(** C7 (amended): if the weight vector is all zeros, every output element
    is a zero exactly when the normalized value it multiplies (converted to
    the input's dtype, as the product sees it) is finite, and is NaN when
    that value is infinite or NaN. *)
Theorem zero_weight_output self x residual lead n :
  shape x = lead ++ [n] → wf_tensor x →
  (∀ r, residual = Some r → shape r = shape x ∧ wf_tensor r) →
  shape (weight self) = [n] → wf_tensor (weight self) →
  Forall (λ w, is_zero w = true) (data (weight self)) →
  let orig := t_dtype x in
  let eps := variance_epsilon self in
  ∃ out, _forward self x residual = Ok out ∧
    ∀ b i row xi,
      chunks n (numel lead) (effective_input x residual) !! b = Some row →
      row !! i = Some xi →
      let rt := t_dtype (output_x out) in
      let p := convert orig rt
                 (convert float32 orig (fmul float32 xi (scale eps row))) in
      ∃ v, data (output_x out) !! (b * n + i) = Some v ∧
           is_zero v = is_finite p ∧ is_nan v = negb (is_finite p).
Proof.
  intros Hsx Hx Hres Hsw Hw Hzero orig eps.
  destruct (forward_elements self x residual lead n Hsx Hx Hres Hsw Hw)
    as (Hcall & _ & Hdt & Helem).
  eexists. split; [exact Hcall|].
  intros b i row xi Hrow Hxi rt p.
  assert (Hlen : length row = n).
  { assert (Hlen : length (effective_input x residual) = numel lead * n).
    { pose proof (wf_snoc x lead n Hsx Hx) as Hlenx.
      destruct residual as [r|]; simpl; [|by rewrite length_fmap].
      destruct (Hres r eq_refl) as [Hsr Hr].
      rewrite <-Hsr in Hsx. pose proof (wf_snoc r lead n Hsx Hr).
      unfold fused_add. rewrite length_zip_with, !length_fmap. lia. }
    apply list_elem_of_lookup_2 in Hrow.
    by apply (proj1 (Forall_forall _ _) (chunks_uniform n _ _ Hlen)). }
  assert (Hi : i < length (data (weight self))).
  { rewrite (wf_vector _ n Hsw Hw), <-Hlen. by eapply lookup_lt_Some. }
  apply lookup_lt_is_Some_2 in Hi as [wi Hwi].
  assert (Hwz : is_zero wi = true).
  { apply list_elem_of_lookup_2 in Hwi.
    by apply (proj1 (Forall_forall _ _) Hzero). }
  eexists. split; [by apply (Helem b i row xi wi)|].
  rewrite (convert_zero _ _ _ Hwz). destruct wi; try done.
  subst p rt. rewrite Hdt. apply fmul_zero_r.
Qed.

Lemma zero_weight_output_witness :
  Forall (λ w, is_zero w = true) (data (weight Examples.zero_layer4)) ∧
  ∃ out v, _forward Examples.zero_layer4 (Examples.twos float32) None = Ok out ∧
           data (output_x out) !! 0 = Some v ∧ is_zero v = true.
Proof.
  split; [by repeat constructor|].
  destruct (zero_weight_output Examples.zero_layer4 (Examples.twos float32) None [] 4)
    as (out & Hcall & Helem);
    try reflexivity; try discriminate; [by repeat constructor|].
  destruct (Helem 0 0 (data (Examples.twos float32)) (of_Z float32 2))
    as (v & Hv & Hz & _); try reflexivity.
  exists out, v. split; [exact Hcall|]. split; [exact Hv|].
  rewrite Hz. vm_compute in Hcall. injection Hcall as <-. reflexivity.
Defined.

End WeightClaims.


Section ConcreteInstance.
Import Formula RMSNorm.

(** C8: with hidden_size = 4, input row 2, 2, 2, 2, weight 1, 1, 1, 1 and
    eps = 1e-6, the variance is 4, the scale is the [float32] value of
    1/sqrt(4 + eps), 16777214 * 2^-25 = 0.49999994..., which is within 1e-7
    of 0.499999875 and whose square times 4.000001 is within 1e-7 of 1, and
    every output element is twice that scale, 0.99999988...; whatever the
    dtype the input is stored at, each output element lies between
    0.9999998 and 1.  The squares add up exactly, so the variance is 4 also
    when the sum is taken pairwise or the mean is taken by multiplying with
    1/4. *)
Theorem concrete_instance :
  let x := Examples.twos float32 in
  let s := S754_finite false 16777214 (-25) in
  __init__ float32 4 (Some eps_default) = Ok Examples.layer4 ∧
  to_Q <$> data x = [Some 2; Some 2; Some 2; Some 2]%Q ∧
  to_Q <$> data (weight Examples.layer4) = [Some 1; Some 1; Some 1; Some 1]%Q ∧
  to_Q <$> data (mean_lastdim (pow2 (to float32 x))) = [Some 4%Q] ∧
  variance (data x) = of_Z float32 4 ∧
  fadd float32 (fadd float32 (of_Z float32 4) (of_Z float32 4))
               (fadd float32 (of_Z float32 4) (of_Z float32 4))
  = of_Z float32 16 ∧
  fmul float32 (of_Z float32 16) (fdiv float32 (of_Z float32 1) (of_Z float32 4))
  = of_Z float32 4 ∧
  data (rsqrt (add_scalar (mean_lastdim (pow2 (to float32 x))) eps_default)) = [s] ∧
  scale eps_default (data x) = s ∧
  to_Q s = Some (8388607 # 16777216)%Q ∧
  (499999775 # 1000000000 < 8388607 # 16777216)%Q ∧
  (8388607 # 16777216 < 499999975 # 1000000000)%Q ∧
  (9999999 # 10000000
   < (4000001 # 1000000) * (8388607 # 16777216) * (8388607 # 16777216))%Q ∧
  ((4000001 # 1000000) * (8388607 # 16777216) * (8388607 # 16777216)
   < 10000001 # 10000000)%Q ∧
  (∃ o v, _forward Examples.layer4 x None = Ok (Out o) ∧
          t_dtype o = float32 ∧ shape o = [4] ∧
          data o = [v; v; v; v] ∧ v = fmul float32 (of_Z float32 2) s ∧
          to_Q v = Some (8388607 # 8388608)%Q ∧
          (8388607 # 8388608 == 2 * (8388607 # 16777216))%Q ∧
          (999999 # 1000000 < 8388607 # 8388608)%Q ∧
          (8388607 # 8388608 < 1)%Q) ∧
  ∀ d, ∃ o v q, _forward Examples.layer4 (Examples.twos d) None = Ok (Out o) ∧
                data o = [v; v; v; v] ∧ to_Q v = Some q ∧
                (9999998 # 10000000 < q)%Q ∧ (q <= 1)%Q.
Proof.
  intros x s. repeat (split; [by vm_compute|]).
  split.
  - do 2 eexists. repeat (split; [by vm_compute|]). by vm_compute.
  - intros d.
    destruct d; do 3 eexists; (split; [by vm_compute|]); (split; [by vm_compute|]);
      (split; [by vm_compute|]); by vm_compute.
Qed.

End ConcreteInstance.


(** ** The store: what a call reads, allocates and leaves alone *)

Section StoreRules.
Import Store.
Context {A : Type}.
Implicit Types (σ : state) (Q : result A → state → Prop).

Lemma extends_refl σ : extends σ σ.
Proof. by split. Qed.

Lemma extends_trans σ1 σ2 σ3 : extends σ1 σ2 → extends σ2 σ3 → extends σ1 σ3.
Proof. intros [Hm1 Ht1] [Hm2 Ht2]. split; [congruence|by etrans]. Qed.

Lemma extends_lookup σ σ' l t :
  extends σ σ' → tensors σ !! l = Some t → tensors σ' !! l = Some t.
Proof. intros [_ Hsub] Hl. by eapply lookup_weaken. Qed.

Lemma extends_modules σ σ' l o :
  extends σ σ' → modules σ !! l = Some o → modules σ' !! l = Some o.
Proof. by intros [-> _]. Qed.

Lemma extends_fresh σ σ' l :
  extends σ σ' → l ∉ dom (tensors σ') → l ∉ dom (tensors σ).
Proof.
  intros [_ Hsub] Hl Hin. apply Hl.
  apply elem_of_dom in Hin as [t Ht]. apply elem_of_dom. exists t.
  by eapply lookup_weaken.
Qed.

Lemma extends_alloc σ l t :
  l ∉ dom (tensors σ) → extends σ (State (<[l:=t]> (tensors σ)) (modules σ)).
Proof.
  intros Hl. split; [done|]. simpl. apply insert_subseteq.
  by apply not_elem_of_dom.
Qed.

Lemma wp_ret (a : A) σ Q : Q (Ok a) σ → wp (mret a) σ Q.
Proof. done. Qed.

Lemma wp_lift (r : result A) σ Q : Q r σ → wp (lift r) σ Q.
Proof. done. Qed.

Lemma wp_bind {B} (m : M B) (k : B → M A) σ Q :
  wp m σ (λ r σ', match r with
                  | Ok b => wp (k b) σ' Q
                  | Raise e => Q (Raise e) σ'
                  end) →
  wp (m ≫= k) σ Q.
Proof.
  unfold wp, mbind, M_bind. destruct (m σ) as [[[b|e] σ']|]; done.
Qed.

End StoreRules.

Section StoreOps.
Import Store.
Implicit Types (σ : state).

Lemma wp_deref l t σ (Q : result tensor → state → Prop) :
  tensors σ !! l = Some t → Q (Ok t) σ → wp (deref l) σ Q.
Proof. intros Hl HQ. unfold wp, deref. by rewrite Hl. Qed.

Lemma wp_getattr {A} (f : module_obj → A) self o σ (Q : result A → state → Prop) :
  modules σ !! self = Some o → Q (Ok (f o)) σ → wp (getattr f self) σ Q.
Proof. intros Hl HQ. unfold wp, getattr. by rewrite Hl. Qed.

Lemma wp_alloc t σ (Q : result loc → state → Prop) :
  (∀ l σ', extends σ σ' → tensors σ' !! l = Some t →
           l ∉ dom (tensors σ) → Q (Ok l) σ') →
  wp (alloc t) σ Q.
Proof.
  intros HQ. unfold wp, alloc.
  assert (Hfresh : fresh (dom (tensors σ)) ∉ dom (tensors σ)) by apply is_fresh.
  apply HQ; [by apply extends_alloc| |done].
  simpl. apply lookup_insert_eq.
Qed.

Lemma wp_dtype_ref x t σ (Q : result dtype → state → Prop) :
  tensors σ !! x = Some t → Q (Ok (t_dtype t)) σ → wp (dtype_ref x) σ Q.
Proof.
  intros Hx HQ. apply wp_bind, (wp_deref x t); [done|]. by apply wp_ret.
Qed.

(** [to] hands back its argument or a new object. *)
Lemma wp_to_ref d x t σ (Q : result loc → state → Prop) :
  tensors σ !! x = Some t →
  (∀ l σ', extends σ σ' → tensors σ' !! l = Some (to d t) →
           l = x ∨ l ∉ dom (tensors σ) → Q (Ok l) σ') →
  wp (to_ref d x) σ Q.
Proof.
  intros Hx HQ. apply wp_bind, (wp_deref x t); [done|].
  case_decide as Hd.
  - apply wp_ret, HQ; [apply extends_refl| |by left].
    unfold to. by rewrite decide_True.
  - apply wp_alloc. intros l σ' ???. apply HQ; auto.
Qed.

Lemma wp_unary_ref op a t σ (Q : result loc → state → Prop) :
  tensors σ !! a = Some t →
  (∀ l σ', extends σ σ' → tensors σ' !! l = Some (op t) →
           l ∉ dom (tensors σ) → Q (Ok l) σ') →
  wp (unary_ref op a) σ Q.
Proof.
  intros Ha HQ. apply wp_bind, (wp_deref a t); [done|]. by apply wp_alloc.
Qed.

Lemma wp_binary_ref op a b ta tb σ (Q : result loc → state → Prop) :
  tensors σ !! a = Some ta → tensors σ !! b = Some tb →
  match op ta tb with
  | Ok t => ∀ l σ', extends σ σ' → tensors σ' !! l = Some t →
                    l ∉ dom (tensors σ) → Q (Ok l) σ'
  | Raise e => Q (Raise e) σ
  end →
  wp (binary_ref op a b) σ Q.
Proof.
  intros Ha Hb HQ.
  apply wp_bind, (wp_deref a ta); [done|].
  apply wp_bind, (wp_deref b tb); [done|].
  apply wp_bind, wp_lift. destruct (op ta tb) as [t|e]; [|done].
  by apply wp_alloc.
Qed.

End StoreOps.


Section StoreForward.
Import Store.
Implicit Types (σ : state).

(** Facts about the state before a step are carried to the state after. *)
Ltac advance E :=
  match type of E with
  | extends ?σ0 ?σ1 =>
      repeat match goal with
      | H : _ ∉ dom (tensors σ0), Hc : extends _ σ0 |- _ =>
          apply (extends_fresh _ _ _ Hc) in H
      end;
      repeat match goal with
      | H : tensors σ0 !! _ = Some _ |- _ => apply (extends_lookup _ _ _ _ E) in H
      | H : modules σ0 !! _ = Some _ |- _ => apply (extends_modules _ _ _ _ E) in H
      | H : extends _ σ0 |- _ => apply (λ H', extends_trans _ _ _ H' E) in H
      end;
      clear E
  end.

(** A call of [_forward] on references does not get stuck, ends in a state
    that extends the one it started in, and returns new objects that hold
    what [RMSNorm._forward] computes from the values referred to. *)
Lemma forward_refs_spec self x residual σ obj w tx tres :
  modules σ !! self = Some obj →
  tensors σ !! weight_ref obj = Some w →
  tensors σ !! x = Some tx →
  resolves σ residual tres →
  wp (_forward_refs self x residual) σ (λ r σ',
    extends σ σ' ∧
    match r, RMSNorm._forward (RMSNorm.Build w (eps_attr obj)) tx tres with
    | Ok ro, Ok o =>
        output_at σ' ro = Some o ∧
        Forall (λ l, l ∉ dom (tensors σ)) (output_locs ro)
    | Raise e, Raise e' => e = e'
    | _, _ => False
    end).
Proof.
  intros Hself Hw Hx Hres.
  pose proof (extends_refl σ) as Hext.
  unfold _forward_refs, RMSNorm._forward, resolves in *.
  destruct residual as [lr|], tres as [tr|]; try done; simpl.
  - apply wp_bind, (wp_dtype_ref x tx); [done|]. cbn beta iota.
    apply wp_bind, (wp_to_ref float32 x tx); [done|].
    intros x32 σ1 E Hx32 _. advance E.
    apply wp_bind, wp_bind, (wp_to_ref float32 lr tr); [done|].
    intros r32 σ2 E Hr32 _. advance E.
    apply wp_bind, (wp_binary_ref add x32 r32 _ _ _ _ Hx32 Hr32).
    destruct (add (to float32 tx) (to float32 tr)) as [s|e]; [|done].
    intros ls σ3 E Hs Hfs. advance E.
    apply wp_bind, (wp_to_ref (t_dtype tx) ls s); [done|].
    intros res σ4 E Hres4 Hfres.
    assert (Hfres' : res ∉ dom (tensors σ)).
    { destruct Hfres as [->|Hfres]; [done|]. by eapply extends_fresh. }
    clear Hfres. advance E.
    apply wp_ret. cbn beta iota.
    apply wp_bind; eapply wp_unary_ref; [eassumption|].
    intros lsq σ5 E Hsq _. advance E.
    apply wp_bind; eapply wp_unary_ref; [eassumption|].
    intros lvar σ6 E Hvar _. advance E.
    apply wp_bind, (wp_getattr eps_attr self obj); [done|]. cbn beta iota.
    apply wp_bind; eapply wp_unary_ref; [eassumption|].
    intros lve σ7 E Hve _. advance E.
    apply wp_bind; eapply wp_unary_ref; [eassumption|].
    intros lrs σ8 E Hrs _. advance E.
    apply wp_bind, (wp_binary_ref mul ls lrs _ _ _ _ Hs Hrs).
    destruct (mul s _) as [n|e] eqn:Hmul1; [|by simpl; rewrite ?Hmul1].
    intros ln σ9 E Hn _. advance E.
    apply wp_bind, (wp_to_ref (t_dtype tx) ln n); [done|].
    intros lxo σ10 E Hxo _. advance E.
    apply wp_bind, (wp_getattr weight_ref self obj); [done|]. cbn beta iota.
    apply wp_bind, (wp_binary_ref mul lxo (weight_ref obj) _ _ _ _ Hxo Hw).
    destruct (mul (to (t_dtype tx) n) w) as [o|e] eqn:Hmul2;
      [|by simpl; rewrite ?Hmul1; simpl; rewrite ?Hmul2].
    intros lo σ11 E Ho Hfo. advance E.
    apply wp_ret. split; [done|]. simpl. rewrite ?Hmul1. simpl. rewrite ?Hmul2.
    simpl. rewrite Ho, Hres4. simpl. split; [done|]. by repeat constructor.
  - apply wp_bind, (wp_dtype_ref x tx); [done|]. cbn beta iota.
    apply wp_bind, (wp_to_ref float32 x tx); [done|].
    intros x32 σ1 E Hx32 _. advance E.
    apply wp_bind, wp_ret. cbn beta iota.
    apply wp_bind; eapply wp_unary_ref; [eassumption|].
    intros lsq σ5 E Hsq _. advance E.
    apply wp_bind; eapply wp_unary_ref; [eassumption|].
    intros lvar σ6 E Hvar _. advance E.
    apply wp_bind, (wp_getattr eps_attr self obj); [done|]. cbn beta iota.
    apply wp_bind; eapply wp_unary_ref; [eassumption|].
    intros lve σ7 E Hve _. advance E.
    apply wp_bind; eapply wp_unary_ref; [eassumption|].
    intros lrs σ8 E Hrs _. advance E.
    apply wp_bind, (wp_binary_ref mul x32 lrs _ _ _ _ Hx32 Hrs).
    destruct (mul (to float32 tx) _) as [n|e] eqn:Hmul1; [|by simpl; rewrite ?Hmul1].
    intros ln σ9 E Hn _. advance E.
    apply wp_bind, (wp_to_ref (t_dtype tx) ln n); [done|].
    intros lxo σ10 E Hxo _. advance E.
    apply wp_bind, (wp_getattr weight_ref self obj); [done|]. cbn beta iota.
    apply wp_bind, (wp_binary_ref mul lxo (weight_ref obj) _ _ _ _ Hxo Hw).
    destruct (mul (to (t_dtype tx) n) w) as [o|e] eqn:Hmul2;
      [|by simpl; rewrite ?Hmul1; simpl; rewrite ?Hmul2].
    intros lo σ11 E Ho Hfo. advance E.
    apply wp_ret. split; [done|]. simpl. rewrite ?Hmul1. simpl. rewrite ?Hmul2.
    simpl. rewrite Ho. simpl. split; [done|]. by repeat constructor.
Qed.

(** C10: a call of [_forward] leaves every tensor object that existed
    before it as it was, among them the caller's input and residual and the
    weight of the instance, and leaves the instance and its epsilon as they
    were; what it returns, the updated residual included, are new objects
    and not objects of the caller written in place. *)
Theorem forward_value_semantic self x residual σ obj w tx tres :
  modules σ !! self = Some obj →
  tensors σ !! weight_ref obj = Some w →
  tensors σ !! x = Some tx →
  resolves σ residual tres →
  ∃ r σ', _forward_refs self x residual σ = Some (r, σ') ∧
    tensors σ' !! x = Some tx ∧
    resolves σ' residual tres ∧
    modules σ' = modules σ ∧
    modules σ' !! self = Some obj ∧
    tensors σ' !! weight_ref obj = Some w ∧
    (∀ l t, tensors σ !! l = Some t → tensors σ' !! l = Some t) ∧
    match r with
    | Ok ro =>
        Forall (λ l, l ∉ dom (tensors σ)) (output_locs ro) ∧
        ∃ o, RMSNorm._forward (RMSNorm.Build w (eps_attr obj)) tx tres = Ok o ∧
             output_at σ' ro = Some o
    | Raise e =>
        RMSNorm._forward (RMSNorm.Build w (eps_attr obj)) tx tres = Raise e
    end.
Proof.
  intros Hself Hw Hx Hres.
  pose proof (forward_refs_spec self x residual σ obj w tx tres
                Hself Hw Hx Hres) as Hwp.
  unfold wp in Hwp.
  destruct (_forward_refs self x residual σ) as [[r σ']|]; [|done].
  destruct Hwp as [Hext Hr]. exists r, σ'. split; [done|].
  split; [by eapply extends_lookup|].
  split.
  { unfold resolves in *. destruct residual, tres; try done.
    by eapply extends_lookup. }
  split; [by destruct Hext|].
  split; [by eapply extends_modules|].
  split; [by eapply extends_lookup|].
  split; [intros l t; by apply extends_lookup|].
  destruct r as [ro|e];
    destruct (RMSNorm._forward _ tx tres) as [o|e']; try done.
  - destruct Hr as [Hat Hfresh]. eauto.
  - by subst.
Qed.

Lemma forward_value_semantic_witness :
  ∃ r σ', _forward_refs 0 0 (Some 0) Examples.store0 = Some (r, σ') ∧
          tensors σ' !! 0 = Some (Examples.twos float16) ∧
          modules σ' = modules Examples.store0.
Proof.
  destruct (forward_value_semantic 0 0 (Some 0) Examples.store0
              (ModuleObj 1 RMSNorm.eps_default)
              (RMSNorm.weight Examples.layer4)
              (Examples.twos float16) (Some (Examples.twos float16)))
    as (r & σ' & Hrun & Hx & _ & Hm & _); try reflexivity.
  exists r, σ'. split; [exact Hrun|]. split; [exact Hx|exact Hm].
Defined.

End StoreForward.


(** ** Errors *)

Section ShapeErrors.
Import RMSNorm.
Implicit Types (a b x r : tensor) (self : RMSNorm.t).

Lemma binary_op_Ok f a b s :
  broadcast_shapes (shape a) (shape b) = Some s →
  ∃ t, binary_op f a b = Ok t ∧ shape t = s ∧ t_dtype t = result_type a b.
Proof. intros Hs. unfold binary_op. rewrite Hs. by eexists. Qed.

Lemma binary_op_Raise f a b :
  broadcast_shapes (shape a) (shape b) = None →
  binary_op f a b = Raise RuntimeError.
Proof. intros Hs. unfold binary_op. by rewrite Hs. Qed.

(** A position where the sizes differ and neither is 1 rules broadcasting
    out. *)
Lemma broadcast_aligned_mismatch (s1 s2 : list nat) i m n :
  s1 !! i = Some m → s2 !! i = Some n → m ≠ n → m ≠ 1 → n ≠ 1 →
  broadcast_aligned s1 s2 = None.
Proof.
  revert s2 i; induction s1 as [|m1 s1 IH]; intros [|n1 s2] [|i] H1 H2 ???;
    simplify_eq/=.
  - by rewrite (proj2 (broadcast_dim_None m n)).
  - rewrite (IH s2 i) by done. by destruct (broadcast_dim m1 n1).
Qed.

(** The scaling step never fails: a [keepdim] reduction always broadcasts
    against its source. *)
Lemma scale_step_Ok eps (t : tensor) :
  ∃ t', mul t (rsqrt (add_scalar (mean_lastdim (pow2 t)) eps)) = Ok t' ∧
        shape t' = shape t.
Proof.
  destruct (binary_op_Ok fmul t (rsqrt (add_scalar (mean_lastdim (pow2 t)) eps))
              (shape t)) as (t' & Ht' & Hs & _); [|by eauto].
  simpl. apply broadcast_shapes_keepdim.
Qed.

(** [_forward] raises exactly when [forward_shape] is undefined. *)
Lemma forward_shape_spec self x residual :
  match forward_shape self x residual with
  | Some s => ∃ out, _forward self x residual = Ok out ∧ shape (output_x out) = s
  | None => _forward self x residual = Raise RuntimeError
  end.
Proof.
  unfold forward_shape, _forward.
  destruct residual as [r|]; simpl.
  - destruct (broadcast_shapes (shape x) (shape r)) as [s|] eqn:Hs; simpl.
    + destruct (binary_op_Ok fadd (to float32 x) (to float32 r) s)
        as (t & Ht & Hst & _); [by rewrite !shape_to|].
      unfold add. rewrite Ht. simpl.
      destruct (scale_step_Ok (variance_epsilon self) t) as (t' & -> & Hst').
      simpl. rewrite <-Hst, <-Hst', <-(shape_to (t_dtype x) t').
      destruct (broadcast_shapes _ (shape (weight self))) as [s'|] eqn:Hs'.
      * destruct (binary_op_Ok fmul _ _ _ Hs') as (o & Ho & Hso & _).
        unfold mul. rewrite Ho. simpl. eauto.
      * unfold mul. by rewrite (binary_op_Raise _ _ _ Hs').
    + unfold add. rewrite binary_op_Raise; [done|by rewrite !shape_to].
  - destruct (scale_step_Ok (variance_epsilon self) (to float32 x)) as (t' & -> & Hst').
    simpl. rewrite shape_to in Hst'.
    rewrite <-Hst', <-(shape_to (t_dtype x) t').
    destruct (broadcast_shapes _ (shape (weight self))) as [s'|] eqn:Hs'.
    + destruct (binary_op_Ok fmul _ _ _ Hs') as (o & Ho & Hso & _).
      unfold mul. rewrite Ho. simpl. eauto.
    + unfold mul. by rewrite (binary_op_Raise _ _ _ Hs').
Qed.

(** C3, as the claim states it, fails whenever the differing shapes can be
    broadcast: a column of rows of length 1 given to a weight of length 4,
    and a residual of one element added to a row of four, raise nothing and
    are broadcast. *)
Lemma shape_mismatch_counterexample :
  (last_dim (shape Examples.column) ≠ length (data (weight Examples.layer4)) ∧
   ∃ o, _forward Examples.layer4 Examples.column None = Ok (Out o) ∧
        shape o = [2; 4]) ∧
  (shape Examples.single ≠ shape (Examples.twos float32) ∧
   ∃ o res, _forward Examples.layer4 (Examples.twos float32) (Some Examples.single)
            = Ok (OutResidual o res) ∧
            shape res = [4]).
Proof.
  split; (split; [done|]).
  - eexists. split; [by vm_compute|done].
  - do 2 eexists. split; [by vm_compute|done].
Qed.

(** C3 (amended): [_forward] raises, aborting the call with torch's
    RuntimeError, exactly when the shapes cannot be broadcast together: the
    shape of the residual against that of the input, then the shape of the
    weight against the result.  In particular it raises when the input's
    last dimension and the length of the weight vector differ and neither is
    1, and when a residual of the input's rank differs from the input at a
    position where neither size is 1.  When the shapes differ but can be
    broadcast, nothing is raised and the call returns a tensor of the
    broadcast shape. *)
Theorem forward_raises_iff self x residual :
  (_forward self x residual = Raise RuntimeError ↔
   forward_shape self x residual = None) ∧
  (∀ s, forward_shape self x residual = Some s ↔
        ∃ out, _forward self x residual = Ok out ∧ shape (output_x out) = s) ∧
  (∀ lead m n, shape x = lead ++ [m] → shape (weight self) = [n] →
               residual = None → m ≠ n → m ≠ 1 → n ≠ 1 →
               _forward self x residual = Raise RuntimeError) ∧
  (∀ r i m n, residual = Some r → length (shape r) = length (shape x) →
              shape x !! i = Some m → shape r !! i = Some n →
              m ≠ n → m ≠ 1 → n ≠ 1 →
              _forward self x residual = Raise RuntimeError).
Proof.
  pose proof (forward_shape_spec self x residual) as Hspec.
  split; [|split; [|split]].
  - destruct (forward_shape self x residual) as [s|].
    + destruct Hspec as (out & -> & _). by split.
    + by split.
  - intros s. destruct (forward_shape self x residual) as [s'|].
    + destruct Hspec as (out & -> & Hs). split.
      * intros [= <-]. eauto.
      * intros (out' & [= <-] & <-). by rewrite Hs.
    + rewrite Hspec. split; [done|]. by intros (? & ? & _).
  - intros lead m n Hsx Hsw -> Hmn Hm Hn.
    unfold forward_shape in Hspec. simpl in Hspec.
    rewrite Hsx, Hsw, broadcast_shapes_row in Hspec.
    by rewrite (proj2 (broadcast_dim_None m n)) in Hspec.
  - intros r i m n -> Hlen Hxi Hri Hmn Hm Hn.
    unfold forward_shape in Hspec.
    rewrite broadcast_shapes_same_rank in Hspec by done.
    by rewrite (broadcast_aligned_mismatch _ _ i m n) in Hspec.
Qed.

End ShapeErrors.


(** ** Framing, for every run *)

Section Framed.
Import Store.

Lemma framed_ret {A} (a : A) : framed (mret a).
Proof. intros σ r σ' [= <- <-]. apply extends_refl. Qed.

Lemma framed_lift {A} (r : result A) : framed (lift r).
Proof. intros σ r' σ' [= <- <-]. apply extends_refl. Qed.

Lemma framed_deref l : framed (deref l).
Proof.
  intros σ r σ'. unfold deref. destruct (tensors σ !! l); [|done].
  intros [= <- <-]. apply extends_refl.
Qed.

Lemma framed_getattr {A} (f : module_obj → A) self : framed (getattr f self).
Proof.
  intros σ r σ'. unfold getattr. destruct (modules σ !! self); [|done].
  intros [= <- <-]. apply extends_refl.
Qed.

Lemma framed_alloc t : framed (alloc t).
Proof.
  intros σ r σ' [= <- <-]. apply extends_alloc, is_fresh.
Qed.

Lemma framed_bind {A B} (m : M A) (k : A → M B) :
  framed m → (∀ a, framed (k a)) → framed (m ≫= k).
Proof.
  intros Hm Hk σ r σ'. unfold mbind, M_bind.
  destruct (m σ) as [[[a|e] σ1]|] eqn:Hrun; [| |done].
  - intros Hrun'. eapply extends_trans; [by eapply Hm|by eapply Hk].
  - intros [= <- <-]. by eapply Hm.
Qed.

Create HintDb framed.
#[local] Hint Resolve framed_ret framed_lift framed_deref framed_getattr
  framed_alloc : framed.
#[local] Hint Extern 2 (framed (_ ≫= _)) => apply framed_bind; [|intros ?] : framed.
#[local] Hint Extern 3 (framed (if ?b then _ else _)) => destruct b : framed.
#[local] Hint Extern 3 (framed (match ?o with Some _ => _ | None => _ end)) =>
  destruct o : framed.
#[local] Hint Extern 3 (framed (let '(_, _) := ?p in _)) => destruct p : framed.

Lemma framed_to_ref d x : framed (to_ref d x).
Proof. unfold to_ref. auto with framed. Qed.

Lemma framed_unary_ref op a : framed (unary_ref op a).
Proof. unfold unary_ref. auto with framed. Qed.

Lemma framed_binary_ref op a b : framed (binary_ref op a b).
Proof. unfold binary_ref. auto 6 with framed. Qed.

#[local] Hint Resolve framed_to_ref framed_unary_ref framed_binary_ref : framed.

(** No run of [_forward] changes an instance or an existing tensor. *)
Lemma framed_forward_refs self x residual : framed (_forward_refs self x residual).
Proof. unfold _forward_refs, dtype_ref. auto 30 with framed. Qed.

End Framed.


(** ** Construction *)

Section Construction.
Import Formula RMSNorm.

Lemma of_Z_one d : to_Q (of_Z d 1) = Some 1%Q.
Proof. by destruct d. Qed.

(** C4, as the claim states it, fails: [__init__] checks neither argument,
    so eps = 0.0, eps = -1.0 and hidden_size = 0 are all accepted. *)
Lemma construction_counterexample :
  (to_Q (of_Z float64 0) = Some 0%Q ∧
   ∃ self, __init__ float32 4 (Some (of_Z float64 0)) = Ok self ∧
           variance_epsilon self = of_Z float64 0) ∧
  (to_Q (of_Z float64 (-1)) = Some (-1)%Q ∧
   ∃ self, __init__ float32 4 (Some (of_Z float64 (-1))) = Ok self ∧
           variance_epsilon self = of_Z float64 (-1)) ∧
  (∃ self, __init__ float32 0 None = Ok self ∧ data (weight self) = []).
Proof.
  split; [|split]; try (split; [by vm_compute|]); eexists; by vm_compute.
Qed.

(** C4 (amended): construction validates neither eps nor hidden_size.  It
    fails, at construction time and with the RuntimeError of [torch.ones],
    exactly when hidden_size is negative; for hidden_size >= 0 it succeeds
    whatever eps is, and stores eps as given. *)
Theorem construction_fails_iff dd hidden_size eps :
  (__init__ dd hidden_size eps = Raise RuntimeError ↔ (hidden_size < 0)%Z) ∧
  ((∃ self, __init__ dd hidden_size eps = Ok self ∧
            variance_epsilon self = default eps_default eps) ↔
   (0 ≤ hidden_size)%Z).
Proof.
  unfold __init__, ones.
  destruct (decide (hidden_size < 0)%Z) as [Hneg|Hpos]; simpl.
  - split; [done|]. split; [by intros (? & ? & _)|lia].
  - split; [split; [done|lia]|]. split; [lia|]. intros _. by eexists.
Qed.

(** C9: construction with a positive hidden_size sets the weight to a
    vector of hidden_size ones and stores the given eps, 1e-6 when none is
    given, unchanged; that stored value is the epsilon of the scale of every
    later call, and no call changes it. *)
Theorem construction_initializes dd hidden_size eps :
  (0 < hidden_size)%Z →
  let n := Z.to_nat hidden_size in
  ∃ self, __init__ dd hidden_size eps = Ok self ∧
    weight self = Tensor dd [n] (replicate n (of_Z dd 1)) ∧
    length (data (weight self)) = n ∧
    Forall (λ v, to_Q v = Some 1%Q) (data (weight self)) ∧
    variance_epsilon self = default eps_default eps ∧
    (∀ e, eps = Some e → variance_epsilon self = e) ∧
    (eps = None →
     variance_epsilon self = fdiv float64 (of_Z float64 1) (of_Z float64 1000000)) ∧
    (∀ x residual lead,
       shape x = lead ++ [n] → wf_tensor x →
       (∀ r, residual = Some r → shape r = shape x ∧ wf_tensor r) →
       ∃ out, _forward self x residual = Ok out ∧
         data (output_x out)
         = concat ((λ row, weighted (t_dtype x) dd (promote_types (t_dtype x) dd)
                             (replicate n (of_Z dd 1))
                             ((λ v, fmul float32 v (scale (default eps_default eps) row))
                              <$> row))
                   <$> chunks n (numel lead) (effective_input x residual))) ∧
    (∀ σ l x residual r σ',
       Store._forward_refs l x residual σ = Some (r, σ') →
       Store.modules σ' = Store.modules σ).
Proof.
  intros Hpos n. unfold __init__, ones.
  rewrite decide_False by lia. simpl. eexists. split; [done|]. simpl.
  split; [done|]. split; [by rewrite length_replicate|].
  split; [apply Forall_replicate, of_Z_one|].
  split; [done|]. split; [by intros e ->|]. split; [by intros ->|].
  split.
  - intros x residual lead Hsx Hx Hres. eexists. split.
    + apply (forward_reference _ x residual lead n); try done.
      unfold wf_tensor; simpl. rewrite length_replicate. lia.
    + unfold reference. rewrite Hsx, removelast_last. by destruct residual.
  - intros σ l x residual r σ' Hrun.
    by destruct (framed_forward_refs l x residual σ r σ' Hrun).
Qed.

Lemma construction_initializes_witness :
  (0 < 4)%Z ∧
  ∃ self, __init__ float32 4 None = Ok self ∧
          weight self = Tensor float32 [4] (replicate 4 (of_Z float32 1)) ∧
          variance_epsilon self = eps_default.
Proof.
  split; [reflexivity|].
  destruct (construction_initializes float32 4 None) as (self & Hinit & Hw & _ & _ & He & _);
    [reflexivity|].
  exists self. split; [exact Hinit|]. split; [exact Hw|exact He].
Defined.

End Construction.


(** * Further properties of [_forward] *)

(** ** Broadcasting keeps tensors well-formed *)

Section WellFormed.
Import Layout RMSNorm.
Implicit Types (a b t x r : tensor) (s : list nat).

Lemma length_concat_uniform {A} k (ls : list (list A)) :
  Forall (λ row, length row = k) ls → length (concat ls) = length ls * k.
Proof.
  induction 1 as [|row ls Hrow _ IH]; simpl; [done|].
  rewrite length_app, IH. lia.
Qed.

Lemma expand_length {A} (from to_ : list nat) (d : list A) :
  expandable from to_ → length d = numel from →
  length (expand from to_ d) = numel to_.
Proof.
  intros Hc; revert d. induction Hc as [|m n from to_ Hmn _ IH]; intros d Hd;
    simpl in *; [done|].
  case_decide as Heq.
  - subst n.
    rewrite (length_concat_uniform (numel to_)).
    + by rewrite length_fmap, length_chunks.
    + apply Forall_fmap. eapply Forall_impl; [by apply chunks_uniform|].
      intros c Hlen. by apply IH.
  - destruct Hmn as [Hmn|Hmn]; [done|subst m].
    rewrite (length_concat_uniform (numel to_)).
    + by rewrite length_replicate.
    + apply Forall_replicate, IH. lia.
Qed.

Lemma broadcast_aligned_expandable s1 s2 s :
  broadcast_aligned s1 s2 = Some s → expandable s1 s ∧ expandable s2 s.
Proof.
  revert s2 s; induction s1 as [|m s1 IH]; intros [|n s2] s Hs; simplify_eq/=.
  - split; constructor.
  - destruct (broadcast_dim m n) as [d|] eqn:Hd; simplify_eq/=.
    destruct (broadcast_aligned s1 s2) as [s'|] eqn:Hs'; simplify_eq/=.
    destruct (IH _ _ Hs') as [H1 H2].
    unfold broadcast_dim in Hd. repeat case_decide; simplify_eq;
      split; constructor; auto.
Qed.

Lemma numel_pad_shape k s : numel (pad_shape k s) = numel s.
Proof. unfold pad_shape. rewrite numel_app, numel_ones. lia. Qed.

Lemma broadcast_aligned_length s1 s2 s :
  broadcast_aligned s1 s2 = Some s → length s = length s1.
Proof.
  revert s2 s; induction s1 as [|m s1 IH]; intros [|n s2] s Hs; simplify_eq/=;
    [done|].
  destruct (broadcast_dim m n); simplify_eq/=.
  destruct (broadcast_aligned s1 s2) eqn:Hs'; simplify_eq/=.
  f_equal. by eapply IH.
Qed.

Lemma length_pad_shape k s : length s ≤ k → length (pad_shape k s) = k.
Proof. intros Hle. unfold pad_shape. rewrite length_app, length_replicate. lia. Qed.

(** An operation with broadcasting on well-formed tensors gives a
    well-formed tensor. *)
Lemma binary_op_wf f a b t :
  wf_tensor a → wf_tensor b → binary_op f a b = Ok t → wf_tensor t.
Proof.
  unfold binary_op, broadcast_shapes, wf_tensor. intros Ha Hb.
  destruct (broadcast_aligned _ _) as [s|] eqn:Hs; [|done].
  intros [= <-]. simpl.
  pose proof (broadcast_aligned_length _ _ _ Hs) as Hlen.
  rewrite length_pad_shape in Hlen by lia. rewrite Hlen.
  destruct (broadcast_aligned_expandable _ _ _ Hs) as [Hca Hcb].
  rewrite length_zip_with, !expand_length;
    rewrite ?numel_pad_shape, ?data_to, ?length_fmap; auto. lia.
Qed.

Lemma mean_lastdim_wf t : wf_tensor t → wf_tensor (mean_lastdim t).
Proof.
  unfold wf_tensor, mean_lastdim, rows. simpl. intros _.
  rewrite length_fmap, length_chunks.
  destruct (shape_snoc_or_nil (shape t)) as [->|(lead & n & ->)]; [done|].
  rewrite keepdim_shape_snoc, removelast_last, numel_snoc. lia.
Qed.

Lemma pow2_wf t : wf_tensor t → wf_tensor (pow2 t).
Proof. unfold wf_tensor, pow2. simpl. by rewrite length_fmap. Qed.

Lemma add_scalar_wf t c : wf_tensor t → wf_tensor (add_scalar t c).
Proof. unfold wf_tensor, add_scalar. simpl. by rewrite length_fmap. Qed.

Lemma rsqrt_wf t : wf_tensor t → wf_tensor (rsqrt t).
Proof. unfold wf_tensor, rsqrt. simpl. by rewrite length_fmap. Qed.

(** X1: whatever the shapes, when [_forward] returns on well-formed
    arguments, the tensors it returns are well-formed: each holds as many
    elements as its shape has positions, also when the residual or the
    weight was broadcast. *)
Theorem forward_well_formed self x residual out :
  wf_tensor x → wf_tensor (weight self) →
  (∀ r, residual = Some r → wf_tensor r) →
  _forward self x residual = Ok out →
  wf_output out.
Proof.
  intros Hx Hw Hres. unfold _forward.
  destruct residual as [r|]; simpl.
  - destruct (add (to float32 x) (to float32 r)) as [s|] eqn:Hadd; [|done]. simpl.
    assert (Hs : wf_tensor s).
    { eapply binary_op_wf; [| |exact Hadd]; apply wf_to; auto. }
    destruct (mul s _) as [n|] eqn:Hmul; [|done]. simpl.
    assert (Hn : wf_tensor n).
    { eapply binary_op_wf; [| |exact Hmul]; [done|].
      by apply rsqrt_wf, add_scalar_wf, mean_lastdim_wf, pow2_wf. }
    destruct (mul (to (t_dtype x) n) (weight self)) as [o|] eqn:Hmul2; [|done].
    intros [= <-]. split; [|by apply wf_to].
    eapply binary_op_wf; [| |exact Hmul2]; [by apply wf_to|done].
  - destruct (mul (to float32 x) _) as [n|] eqn:Hmul; [|done]. simpl.
    assert (Hn : wf_tensor n).
    { eapply binary_op_wf; [| |exact Hmul]; [by apply wf_to|].
      by apply rsqrt_wf, add_scalar_wf, mean_lastdim_wf, pow2_wf, wf_to. }
    destruct (mul (to (t_dtype x) n) (weight self)) as [o|] eqn:Hmul2; [|done].
    intros [= <-].
    eapply binary_op_wf; [| |exact Hmul2]; [by apply wf_to|done].
Qed.

Lemma forward_well_formed_witness :
  ∃ out, _forward Examples.layer4 Examples.column None = Ok out ∧ wf_output out.
Proof.
  eexists. split; [vm_compute; reflexivity|].
  apply (forward_well_formed Examples.layer4 Examples.column None);
    [reflexivity|reflexivity|discriminate|vm_compute; reflexivity].
Defined.

End WellFormed.


(** ** Rows of a batch *)

Section Batches.
Import Formula Layout RMSNorm.
Implicit Types (x r : tensor) (self : RMSNorm.t) (lead : list nat).

Lemma lookup_chunks_take {A} k n (l : list A) b :
  b < n → chunks k n l !! b = Some (take k (drop (b * k) l)).
Proof.
  revert l b; induction n as [|n IH]; intros l [|b] Hb; simpl; try lia; [done|].
  rewrite IH by lia. by rewrite drop_drop.
Qed.

Lemma take_drop_concat_uniform {A} k (ls : list (list A)) b row :
  Forall (λ row, length row = k) ls → ls !! b = Some row →
  take k (drop (b * k) (concat ls)) = row.
Proof.
  intros Hall; revert b; induction Hall as [|row' ls Hrow _ IH];
    intros [|b] Hb; try done; simpl in *.
  - injection Hb as ->. by rewrite drop_0, take_app_length'.
  - rewrite drop_app_ge by lia.
    replace (k + b * k - length row') with (b * k) by lia. by apply IH.
Qed.

Lemma effective_input_length x residual lead n :
  shape x = lead ++ [n] → wf_tensor x →
  (∀ r, residual = Some r → shape r = shape x ∧ wf_tensor r) →
  length (effective_input x residual) = numel lead * n.
Proof.
  intros Hsx Hx Hres. pose proof (wf_snoc x lead n Hsx Hx) as Hlen.
  destruct residual as [r|]; simpl; [|by rewrite length_fmap].
  destruct (Hres r eq_refl) as [Hsr Hr].
  rewrite <-Hsr in Hsx. pose proof (wf_snoc r lead n Hsx Hr).
  unfold fused_add. rewrite length_zip_with, !length_fmap. lia.
Qed.

Lemma effective_input_row x residual n b :
  effective_input (row n b x) (row n b <$> residual)
  = take n (drop (b * n) (effective_input x residual)).
Proof.
  destruct residual as [r|]; simpl.
  - unfold fused_add. by rewrite zip_with_drop, zip_with_take, !fmap_take, !fmap_drop.
  - by rewrite fmap_take, fmap_drop.
Qed.

(** X2: a call on a batch treats every row on its own: row [b] of the
    output, and of the updated residual, is what the call returns when it
    is given row [b] of the input (and of the residual) alone. *)
Theorem forward_row_by_row self x residual lead n b :
  shape x = lead ++ [n] → wf_tensor x →
  (∀ r, residual = Some r → shape r = shape x ∧ wf_tensor r) →
  shape (weight self) = [n] → wf_tensor (weight self) →
  b < numel lead →
  ∃ out outb,
    _forward self x residual = Ok out ∧
    _forward self (row n b x) (row n b <$> residual) = Ok outb ∧
    output_x outb = row n b (output_x out) ∧
    output_residual outb = row n b <$> output_residual out.
Proof.
  intros Hsx Hx Hres Hsw Hw Hb.
  pose proof (effective_input_length x residual lead n Hsx Hx Hres) as He.
  pose proof (wf_vector _ n Hsw Hw) as Hlenw.
  assert (Hrowlen : length (take n (drop (b * n) (effective_input x residual))) = n).
  { rewrite length_take, length_drop. nia. }
  do 2 eexists. split; [by apply (forward_reference self x residual lead n)|].
  split.
  { apply (forward_reference self _ _ [] n); try done.
    - unfold wf_tensor, row; simpl.
      pose proof (wf_snoc x lead n Hsx Hx). rewrite length_take, length_drop. nia.
    - intros r'. destruct residual as [r|]; [|done]. intros [= <-].
      destruct (Hres r eq_refl) as [Hsr Hr]. split; [done|].
      rewrite <-Hsr in Hsx. pose proof (wf_snoc r lead n Hsx Hr).
      unfold wf_tensor, row; simpl. rewrite length_take, length_drop. nia. }
  unfold reference. rewrite Hsx, removelast_last. cbn -[effective_input].
  rewrite effective_input_row, app_nil_r, take_take, Nat.min_id.
  assert (Hrow : take n (drop (b * n)
            (concat (output_row (t_dtype x) (t_dtype (weight self))
                       (promote_types (t_dtype x) (t_dtype (weight self)))
                       (variance_epsilon self) (data (weight self))
                     <$> chunks n (numel lead) (effective_input x residual))))
          = output_row (t_dtype x) (t_dtype (weight self))
              (promote_types (t_dtype x) (t_dtype (weight self)))
              (variance_epsilon self) (data (weight self))
              (take n (drop (b * n) (effective_input x residual)))).
  { apply take_drop_concat_uniform.
    - apply Forall_fmap. eapply Forall_impl; [by apply chunks_uniform|].
      intros c Hc. simpl. rewrite output_row_length; congruence.
    - by rewrite list_lookup_fmap, lookup_chunks_take. }
  destruct residual as [r|];
    (split; [unfold row; cbn -[effective_input]; by rewrite Hrow|]).
  - unfold row; cbn -[effective_input]. by rewrite fmap_take, fmap_drop.
  - done.
Qed.

Lemma forward_row_by_row_witness :
  ∃ out outb,
    _forward Examples.layer4 MoreExamples.batch (Some MoreExamples.batch) = Ok out ∧
    _forward Examples.layer4 (row 4 1 MoreExamples.batch)
      (Some (row 4 1 MoreExamples.batch)) = Ok outb ∧
    output_x outb = row 4 1 (output_x out).
Proof.
  destruct (forward_row_by_row Examples.layer4 MoreExamples.batch
              (Some MoreExamples.batch) [2] 4 1)
    as (out & outb & H1 & H2 & H3 & _); try reflexivity.
  - intros r [= <-]. split; reflexivity.
  - simpl. lia.
  - exists out, outb. split; [exact H1|]. split; [exact H2|exact H3].
Defined.

(** X3: the leading dimensions only group the rows: a call on the input
    (and residual) reshaped to a matrix of rows returns the same elements,
    in the shape of that matrix. *)
Theorem forward_flattened self x residual lead n :
  shape x = lead ++ [n] → wf_tensor x →
  (∀ r, residual = Some r → shape r = shape x ∧ wf_tensor r) →
  shape (weight self) = [n] → wf_tensor (weight self) →
  ∃ out out',
    _forward self x residual = Ok out ∧
    _forward self (as_matrix n x) (as_matrix n <$> residual) = Ok out' ∧
    output_x out' = as_matrix n (output_x out) ∧
    output_residual out' = as_matrix n <$> output_residual out.
Proof.
  intros Hsx Hx Hres Hsw Hw.
  assert (Hsm : shape (as_matrix n x) = [numel lead] ++ [n]).
  { unfold as_matrix; simpl. by rewrite Hsx, removelast_last. }
  assert (Heff : effective_input (as_matrix n x) (as_matrix n <$> residual)
                 = effective_input x residual) by (by destruct residual).
  do 2 eexists. split; [by apply (forward_reference self x residual lead n)|].
  split.
  { apply (forward_reference self _ _ [numel lead] n); try done.
    - unfold wf_tensor. rewrite Hsm. unfold as_matrix; simpl.
      rewrite (wf_snoc x lead n Hsx Hx). lia.
    - intros r'. destruct residual as [r|]; [|done]. intros [= <-].
      destruct (Hres r eq_refl) as [Hsr Hr].
      assert (Hsr' : shape r = lead ++ [n]) by congruence.
      split; [unfold as_matrix; simpl; by rewrite Hsr|].
      unfold wf_tensor, as_matrix; simpl. rewrite Hsr', removelast_last.
      rewrite (wf_snoc r lead n Hsr' Hr). lia. }
  unfold reference. rewrite Heff, Hsm, Hsx. cbn -[effective_input].
  rewrite !removelast_last. cbn -[effective_input]. rewrite Nat.mul_1_r.
  destruct residual; cbn -[effective_input]; unfold as_matrix;
    cbn -[effective_input]; by rewrite ?removelast_last.
Qed.

Lemma forward_flattened_witness :
  ∃ out out',
    _forward Examples.layer4 MoreExamples.block None = Ok out ∧
    _forward Examples.layer4 (as_matrix 4 MoreExamples.block) None = Ok out' ∧
    output_x out' = as_matrix 4 (output_x out).
Proof.
  destruct (forward_flattened Examples.layer4 MoreExamples.block None [1; 2] 4)
    as (out & out' & H1 & H2 & H3 & _); try reflexivity; try discriminate.
  exists out, out'. split; [exact H1|]. split; [exact H2|exact H3].
Defined.






End Batches.


(** ** Signs, NaN and the order of the addition *)

Section Ieee.
Import Formula Layout RMSNorm.
Implicit Types (d : dtype) (v w : spec_float).

Lemma binary_round_aux_opp p e s m ex l :
  SFopp (binary_round_aux p e s m ex l) = binary_round_aux p e (negb s) m ex l.
Proof.
  unfold binary_round_aux.
  destruct (shr_fexp p e m ex l) as [mrs e'].
  destruct (shr_fexp p e _ e' loc_Exact) as [mrs' e''].
  destruct (shr_m mrs'); [done| |done]. by destruct (Z.leb _ _).
Qed.

Lemma fmul_opp_l d v w : fmul d (SFopp v) w = SFopp (fmul d v w).
Proof.
  unfold fmul. destruct v as [s|s| |s m ex], w as [s'|s'| |s' m' ex']; simpl;
    try done; try (by destruct s, s').
  rewrite binary_round_aux_opp. by destruct s, s'.
Qed.

Lemma fmul_opp_opp d v : fmul d (SFopp v) (SFopp v) = fmul d v v.
Proof.
  unfold fmul. destruct v as [s|s| |s m ex]; simpl; try done; by destruct s.
Qed.

Lemma cast_opp d v : cast d (SFopp v) = SFopp (cast d v).
Proof.
  destruct v as [s|s| |s m ex]; simpl; try done.
  unfold binary_round. destruct (shl_align _ _ _) as [mz ez].
  by rewrite binary_round_aux_opp.
Qed.

Lemma convert_opp a b v : convert a b (SFopp v) = SFopp (convert a b v).
Proof. unfold convert. case_decide; [done|apply cast_opp]. Qed.

Lemma fadd_comm d v w : fadd d v w = fadd d w v.
Proof.
  unfold fadd. destruct v as [s|s| |s m ex], w as [s'|s'| |s' m' ex']; simpl;
    try done; try (by destruct s, s').
  by rewrite (Z.min_comm ex ex'), Z.add_comm.
Qed.

Lemma fadd_nan_l d v : fadd d S754_nan v = S754_nan.
Proof. done. Qed.

Lemma fadd_nan_r d v : fadd d v S754_nan = S754_nan.
Proof. by destruct v. Qed.

Lemma fmul_nan_l d v : fmul d S754_nan v = S754_nan.
Proof. done. Qed.

Lemma fmul_nan_r d v : fmul d v S754_nan = S754_nan.
Proof. by destruct v. Qed.

Lemma convert_nan a b : convert a b S754_nan = S754_nan.
Proof. unfold convert. by case_decide. Qed.

Lemma foldl_fadd_nan d (l : list spec_float) :
  foldl (fadd d) S754_nan l = S754_nan.
Proof. induction l as [|v l IH]; simpl; [done|by rewrite IH]. Qed.

Lemma sum_with_nan d (l : list spec_float) acc :
  S754_nan ∈ l → foldl (fadd d) acc l = S754_nan.
Proof.
  intros Hin. apply list_elem_of_split in Hin as (l1 & l2 & ->).
  rewrite foldl_app. simpl. rewrite fadd_nan_r. apply foldl_fadd_nan.
Qed.

Lemma scale_nan eps (row : list spec_float) :
  S754_nan ∈ row → scale eps row = S754_nan.
Proof.
  intros Hin. unfold scale, variance.
  rewrite (sum_with_nan float32); [done|].
  apply list_elem_of_fmap. exists S754_nan. by rewrite fmul_nan_l.
Qed.

End Ieee.


Section Symmetries.
Import Formula Layout RMSNorm.
Implicit Types (x r : tensor) (self : RMSNorm.t) (lead : list nat).

(** X5: a NaN anywhere in a row of the input makes every element of that
    row of the output NaN (the variance of the row, hence its scale, is
    NaN); by the row-by-row property the other rows are not touched. *)
Theorem forward_nan_fills_row self x residual lead n b i :
  shape x = lead ++ [n] → wf_tensor x →
  (∀ r, residual = Some r → shape r = shape x ∧ wf_tensor r) →
  shape (weight self) = [n] → wf_tensor (weight self) →
  b < numel lead → i < n →
  data x !! (b * n + i) = Some S754_nan →
  ∃ out, _forward self x residual = Ok out ∧
         ∀ j, j < n → data (output_x out) !! (b * n + j) = Some S754_nan.
Proof.
  intros Hsx Hx Hres Hsw Hw Hb Hi Hnan.
  destruct (forward_elements self x residual lead n Hsx Hx Hres Hsw Hw)
    as (Hcall & _ & _ & Helem).
  eexists. split; [exact Hcall|]. intros j Hj.
  pose proof (effective_input_length x residual lead n Hsx Hx Hres) as He.
  pose proof (wf_vector _ n Hsw Hw) as Hlenw.
  set (row := take n (drop (b * n) (effective_input x residual))).
  assert (Hrow : chunks n (numel lead) (effective_input x residual) !! b = Some row)
    by (by apply lookup_chunks_take).
  assert (Hlenrow : length row = n).
  { unfold row. rewrite length_take, length_drop. nia. }
  assert (Hin : S754_nan ∈ row).
  { apply list_elem_of_lookup. exists i.
    rewrite (lookup_chunks _ _ _ _ _ _ Hrow Hi).
    destruct residual as [r|]; simpl.
    - destruct (Hres r eq_refl) as [Hsr Hr].
      assert (Hsr' : shape r = lead ++ [n]) by congruence.
      pose proof (wf_snoc r lead n Hsr' Hr) as Hlenr.
      destruct (lookup_lt_is_Some_2 (data r) (b * n + i)) as [rv Hrv]; [nia|].
      rewrite (fused_add_lookup _ _ _ _ _ _ _ Hnan Hrv).
      by rewrite convert_nan, fadd_nan_l.
    - by rewrite list_lookup_fmap, Hnan; simpl; rewrite convert_nan. }
  destruct (lookup_lt_is_Some_2 row j) as [xj Hxj]; [lia|].
  destruct (lookup_lt_is_Some_2 (data (weight self)) j) as [wj Hwj]; [lia|].
  rewrite (Helem b j row xj wj Hrow Hxj Hwj).
  by rewrite (scale_nan _ _ Hin), fmul_nan_r, !convert_nan, fmul_nan_l.
Qed.

Lemma forward_nan_fills_row_witness :
  ∃ out, _forward Examples.layer4 MoreExamples.row_with_nan None = Ok out ∧
         data (output_x out) !! 3 = Some S754_nan.
Proof.
  destruct (forward_nan_fills_row Examples.layer4 MoreExamples.row_with_nan None
              [] 4 0 1) as (out & Hcall & Hrow);
    try reflexivity; try discriminate; try (simpl; lia).
  exists out. split; [exact Hcall|]. apply (Hrow 3). lia.
Defined.

Lemma scale_opp eps (row : list spec_float) :
  scale eps (SFopp <$> row) = scale eps row.
Proof.
  unfold scale, variance. rewrite length_fmap, <-list_fmap_compose.
  by rewrite (list_fmap_ext ((λ v, fmul float32 v v) ∘ SFopp)
                (λ v, fmul float32 v v) row)
    by (intros; apply fmul_opp_opp).
Qed.

Lemma output_row_opp orig wd rt eps (w row : list spec_float) :
  output_row orig wd rt eps w (SFopp <$> row)
  = SFopp <$> output_row orig wd rt eps w row.
Proof.
  unfold output_row, weighted, normalized. rewrite scale_opp.
  generalize (scale eps row). intros s.
  revert w. induction row as [|v row IH]; intros [|wi w]; csimpl; try done.
  f_equal; [|apply IH].
  by rewrite fmul_opp_l, !convert_opp, fmul_opp_l.
Qed.

Lemma fmap_concat_rows {A B} (f : A → B) (ls : list (list A)) :
  f <$> concat ls = concat ((λ row : list A, f <$> row) <$> ls).
Proof.
  induction ls as [|row ls IH]; csimpl; [done|]. by rewrite fmap_app, IH.
Qed.

(** X6: without a residual the layer is odd: flipping the sign of every
    element of the input flips the sign of every element of the output and
    changes nothing else. *)
Theorem forward_neg self x lead n :
  shape x = lead ++ [n] → wf_tensor x →
  shape (weight self) = [n] → wf_tensor (weight self) →
  ∃ o, _forward self x None = Ok (Out o) ∧
       _forward self (neg x) None = Ok (Out (neg o)).
Proof.
  intros Hsx Hx Hsw Hw.
  eexists. split; [by apply (forward_reference self x None lead n)|].
  rewrite (forward_reference self (neg x) None lead n); try done.
  - unfold reference, neg. simpl. do 3 f_equal.
    rewrite <-!list_fmap_compose.
    rewrite (list_fmap_ext (convert (t_dtype x) float32 ∘ SFopp)
               (SFopp ∘ convert (t_dtype x) float32) (data x))
      by (intros; apply convert_opp).
    rewrite list_fmap_compose, chunks_fmap, <-list_fmap_compose.
    rewrite fmap_concat_rows, <-list_fmap_compose. f_equal.
    apply list_fmap_ext. intros ? row _. apply output_row_opp.
  - unfold wf_tensor, neg in *. simpl. by rewrite length_fmap.
Qed.

Lemma forward_neg_witness :
  ∃ o, _forward Examples.layer4 MoreExamples.batch None = Ok (Out o) ∧
       _forward Examples.layer4 (neg MoreExamples.batch) None = Ok (Out (neg o)).
Proof.
  apply (forward_neg Examples.layer4 MoreExamples.batch [2] 4); reflexivity.
Defined.

Lemma fused_add_comm d (xs rs : list spec_float) :
  fused_add d d xs rs = fused_add d d rs xs.
Proof.
  unfold fused_add. revert rs. induction xs as [|v xs IH]; intros [|w rs];
    csimpl; try done.
  by rewrite IH, fadd_comm.
Qed.

(** X7: the input and the residual enter a call through their sum only:
    for two tensors of one shape and dtype, exchanging the input and the
    residual gives the same output and the same updated residual. *)
Theorem forward_residual_exchange self x r lead n :
  shape x = lead ++ [n] → wf_tensor x →
  shape r = shape x → wf_tensor r → t_dtype r = t_dtype x →
  shape (weight self) = [n] → wf_tensor (weight self) →
  _forward self x (Some r) = _forward self r (Some x) ∧
  ∃ out, _forward self x (Some r) = Ok out.
Proof.
  intros Hsx Hx Hsr Hr Hd Hsw Hw.
  rewrite (forward_reference self x (Some r) lead n); try done;
    [|by intros ? [= <-]].
  rewrite (forward_reference self r (Some x) lead n); try done;
    [|congruence|intros ? [= <-]; split; [congruence|done]].
  split; [|by eexists].
  unfold reference, effective_input. rewrite Hsr, Hd.
  by rewrite (fused_add_comm (t_dtype x) (data r) (data x)).
Qed.

Lemma forward_residual_exchange_witness :
  _forward Examples.layer4 MoreExamples.batch (Some (neg MoreExamples.batch))
  = _forward Examples.layer4 (neg MoreExamples.batch) (Some MoreExamples.batch).
Proof.
  apply (forward_residual_exchange Examples.layer4 MoreExamples.batch
           (neg MoreExamples.batch) [2] 4); reflexivity.
Defined.

End Symmetries.


(** * [forward] *)

Section DispatchRules.
Import Dispatch.
Implicit Types (σ : state).

Lemma run_bind {A B} (m : P A) (k : A → P B) σ a σ' :
  m σ = Some (Return a, σ') → (m ≫= k) σ = k a σ'.
Proof. intros Hm. unfold mbind, P_bind. by rewrite Hm. Qed.

Lemma run_bind_except {A B} (m : P A) (k : A → P B) σ e σ' :
  m σ = Some (Except e, σ') → (m ≫= k) σ = Some (Except e, σ').
Proof. intros Hm. unfold mbind, P_bind. by rewrite Hm. Qed.

Lemma run_deref l o σ : objects σ !! l = Some o → deref l σ = Some (Return o, σ).
Proof. intros Hl. unfold deref. by rewrite Hl. Qed.

Lemma run_getattr {A} (f : Store.module_obj → A) self m σ :
  modules σ !! self = Some m → getattr f self σ = Some (Return (f m), σ).
Proof. intros Hl. unfold getattr. by rewrite Hl. Qed.

Lemma dispatch_extends_refl σ : extends σ σ.
Proof. by split. Qed.

Lemma dispatch_extends_lookup σ σ' l o :
  extends σ σ' → objects σ !! l = Some o → objects σ' !! l = Some o.
Proof. intros [_ Hsub] Hl. by eapply lookup_weaken. Qed.

Lemma use_fused_off_hpu g x o σ :
  objects σ !! x = Some o → device_type o ≠ "hpu"%string →
  use_fused g x σ = Some (Return None, σ).
Proof.
  intros Hx Hdev. unfold use_fused.
  rewrite (run_bind _ _ _ _ _ (run_deref _ _ _ Hx)). by rewrite decide_False.
Qed.

Lemma use_fused_on_hpu k x o σ :
  objects σ !! x = Some o → device_type o = "hpu"%string →
  use_fused (BoundClass k) x σ = Some (Return (Some k), σ).
Proof.
  intros Hx Hdev. unfold use_fused.
  rewrite (run_bind _ _ _ _ _ (run_deref _ _ _ Hx)). by rewrite decide_True.
Qed.

End DispatchRules.


Section DispatchValues.
Import Formula Dispatch RMSNorm.
Implicit Types (a b x r t : tensor) (self : RMSNorm.t) (lead : list nat).

Lemma view_Ok s t :
  numel s = numel (shape t) → view s t = Ok (Tensor (t_dtype t) s (data t)).
Proof. intros Hs. unfold view. by rewrite decide_True. Qed.

Lemma view_Raise s t :
  numel s ≠ numel (shape t) → view s t = Raise RuntimeError.
Proof. intros Hs. unfold view. by rewrite decide_False. Qed.

Lemma view_own_shape t : view (shape t) t = Ok t.
Proof. rewrite view_Ok by done. by destruct t. Qed.

(** [a += b] on [float32] tensors of one shape. *)
Lemma iadd_float32 a b :
  t_dtype a = float32 → t_dtype b = float32 →
  shape b = shape a → wf_tensor a → wf_tensor b →
  iadd a b
  = Ok (Tensor float32 (shape a) (zip_with (fadd float32) (data a) (data b))).
Proof.
  intros Ha Hb Hs Hwa Hwb. unfold iadd, add.
  rewrite binary_op_same_shape by done. rewrite Ha, Hb.
  cbn [mbind result_bind shape promote_types].
  rewrite decide_True by done. rewrite !convert_same.
  unfold to. cbn [t_dtype]. by rewrite decide_True.
Qed.

(** On [float32] tensors, adding the input to the residual in place and
    then normalizing the sum without a residual computes what [_forward]
    computes from the input and the residual. *)
Lemma forward_add_then_normalize self x r lead n :
  t_dtype x = float32 → t_dtype r = float32 →
  shape x = lead ++ [n] → wf_tensor x →
  shape r = shape x → wf_tensor r →
  shape (weight self) = [n] → wf_tensor (weight self) →
  ∃ sum o, iadd r x = Ok sum ∧
    _forward self x (Some r) = Ok (OutResidual o sum) ∧
    _forward self sum None = Ok (Out o) ∧
    shape o = shape x.
Proof.
  intros Hdx Hdr Hsx Hx Hsr Hr Hsw Hw.
  do 2 eexists. split; [by apply iadd_float32|].
  rewrite (forward_reference self x (Some r) lead n); try done;
    [|by intros ? [= <-]].
  rewrite (forward_reference self _ None lead n); try done; simpl.
  - unfold reference. simpl. rewrite Hdx, Hdr, Hsr, !convert_same.
    rewrite (fused_add_comm float32 (data x) (data r)).
    unfold fused_add. by rewrite !convert_same.
  - congruence.
  - unfold wf_tensor in *. simpl. rewrite length_zip_with, Hsr in *. lia.
Qed.

End DispatchValues.


Section DispatchForward.
Import Dispatch.
Implicit Types (σ : state) (ops : custom_ops).

Lemma run_view_ref x s o t σ :
  objects σ !! x = Some o → view s (value o) = Ok t →
  view_ref x s σ
  = Some (Return (fresh (dom (objects σ))),
          State (<[fresh (dom (objects σ)) := TensorObj (device_type o) t]> (objects σ))
                (modules σ)).
Proof.
  intros Hx Hv. unfold view_ref.
  rewrite (run_bind _ _ _ _ _ (run_deref _ _ _ Hx)). by rewrite Hv.
Qed.

Lemma run_view_ref_raise x s o σ :
  objects σ !! x = Some o → view s (value o) = Raise RuntimeError →
  view_ref x s σ = Some (Except (TorchError RuntimeError), σ).
Proof.
  intros Hx Hv. unfold view_ref.
  rewrite (run_bind _ _ _ _ _ (run_deref _ _ _ Hx)). by rewrite Hv.
Qed.

Lemma run_iadd_ref a b oa ob t σ :
  objects σ !! a = Some oa → objects σ !! b = Some ob →
  iadd (value oa) (value ob) = Ok t →
  iadd_ref a b σ
  = Some (Return (),
          State (<[a := TensorObj (device_type oa) t]> (objects σ)) (modules σ)).
Proof.
  intros Ha Hb Ht. unfold iadd_ref.
  rewrite (run_bind _ _ _ _ _ (run_deref _ _ _ Ha)).
  rewrite (run_bind _ _ _ _ _ (run_deref _ _ _ Hb)).
  rewrite Ht. unfold mbind, P_bind, lift_torch, write. by rewrite Ha.
Qed.

Lemma run_empty_like uninit x o σ :
  objects σ !! x = Some o →
  empty_like uninit x σ
  = Some (Return (fresh (dom (objects σ))),
          State (<[fresh (dom (objects σ)) :=
                     TensorObj (device_type o)
                       (Tensor (t_dtype (value o)) (shape (value o))
                          (uninit (numel (shape (value o)))))]> (objects σ))
                (modules σ)).
Proof.
  intros Hx. unfold empty_like.
  by rewrite (run_bind _ _ _ _ _ (run_deref _ _ _ Hx)).
Qed.

Lemma fresh_not_in σ l o : objects σ !! l = Some o → l ≠ fresh (dom (objects σ)).
Proof.
  intros Hl ->. apply (is_fresh (dom (objects σ))). apply elem_of_dom. eauto.
Qed.

(** X8: for a tensor that is not on an HPU, [forward] never looks at
    [FusedRMSNorm]: the run is the same whatever the name is bound to, and
    also when it is not bound at all.  It works in place: with a residual
    it returns, whenever the kernel returns, the very two objects it was
    given; without one it returns an object that did not exist before the
    call, so never the input itself. *)
Theorem forward_off_hpu_objects ops uninit g self x residual σ o :
  objects σ !! x = Some o → device_type o ≠ "hpu"%string →
  (∀ g', forward ops uninit g self x residual σ
         = forward ops uninit g' self x residual σ) ∧
  ∀ ro σ',
    forward ops uninit g self x residual σ = Some (Return ro, σ') →
    match residual with
    | Some r => ro = Store.OutResidualRef x r
    | None => ∃ out, ro = Store.OutRef out ∧ (out ∉ dom (objects σ)) ∧ out ≠ x
    end.
Proof.
  intros Hx Hdev. split.
  { intros g'. unfold forward.
    destruct residual as [r|];
      by rewrite (run_bind _ _ _ _ _ (use_fused_off_hpu g x o σ Hx Hdev)),
                 (run_bind _ _ _ _ _ (use_fused_off_hpu g' x o σ Hx Hdev)). }
  intros ro σ'. unfold forward.
  destruct residual as [r|];
    rewrite (run_bind _ _ _ _ _ (use_fused_off_hpu g x o σ Hx Hdev)).
  - destruct (modules σ !! self) as [m|] eqn:Hm;
      [|by unfold getattr, mbind, P_bind; rewrite Hm].
    rewrite (run_bind _ _ _ _ _ (run_getattr Store.weight_ref self m σ Hm)).
    rewrite (run_bind _ _ _ _ _ (run_getattr Store.eps_attr self m σ Hm)).
    unfold mbind, P_bind.
    destruct (fused_add_rms_norm ops x r (Store.weight_ref m) (Store.eps_attr m) σ)
      as [[[[]|e'] σ1]|]; [|done..].
    by intros [= <- <-].
  - rewrite (run_bind _ _ _ _ _ (run_empty_like uninit x o σ Hx)).
    set (out := fresh (dom (objects σ))).
    set (σ0 := State _ (modules σ)).
    destruct (modules σ !! self) as [m|] eqn:Hm;
      [|by unfold getattr, mbind, P_bind; simpl; rewrite Hm].
    rewrite (run_bind _ _ _ _ _ (run_getattr Store.weight_ref self m σ0 Hm)).
    rewrite (run_bind _ _ _ _ _ (run_getattr Store.eps_attr self m σ0 Hm)).
    unfold mbind, P_bind.
    match goal with
    | |- context [rms_norm ?a ?b ?c ?d ?e ?f] =>
        destruct (rms_norm a b c d e f) as [[[[]|e'] σ1]|]; [|done..]
    end.
    intros [= <- <-]. exists out. split; [done|].
    split; [apply is_fresh|]. symmetry. by eapply fresh_not_in.
Qed.

Lemma forward_off_hpu_objects_witness :
  ∃ ro σ',
    forward idle_ops DispatchExamples.uninit_nan Unbound 0 0 (Some 1)
      (DispatchExamples.store_on "cpu") = Some (Return ro, σ') ∧
    ro = Store.OutResidualRef 0 1 ∧
    forward idle_ops DispatchExamples.uninit_nan Unbound 0 0 (Some 1)
      (DispatchExamples.store_on "cpu")
    = forward idle_ops DispatchExamples.uninit_nan BoundNone 0 0 (Some 1)
        (DispatchExamples.store_on "cpu").
Proof.
  assert (Hrun : ∃ ro σ',
    forward idle_ops DispatchExamples.uninit_nan Unbound 0 0 (Some 1)
      (DispatchExamples.store_on "cpu") = Some (Return ro, σ'))
    by (vm_compute; eauto).
  destruct Hrun as (ro & σ' & Hrun). exists ro, σ'. split; [exact Hrun|].
  destruct (forward_off_hpu_objects idle_ops DispatchExamples.uninit_nan Unbound
              0 0 (Some 1) (DispatchExamples.store_on "cpu")
              (TensorObj "cpu" (Examples.twos float32)))
    as [Hindep Hobj]; [reflexivity|discriminate|].
  split; [exact (Hobj ro σ' Hrun)|exact (Hindep BoundNone)].
Defined.

(** X9: on the HPU path with a residual, an input whose number of elements
    differs from the residual's is refused by [x.view] with a RuntimeError
    before anything is written: the store is unchanged and the fused kernel
    is not called. *)
Theorem forward_hpu_size_mismatch ops uninit apply self x residual σ ox or :
  objects σ !! x = Some ox → device_type ox = "hpu"%string →
  objects σ !! residual = Some or →
  numel (shape (value or)) ≠ numel (shape (value ox)) →
  forward ops uninit (BoundClass apply) self x (Some residual) σ
  = Some (Except (TorchError RuntimeError), σ).
Proof.
  intros Hx Hdev Hr Hne. unfold forward.
  rewrite (run_bind _ _ _ _ _ (use_fused_on_hpu apply x ox σ Hx Hdev)).
  rewrite (run_bind _ _ _ _ _ (run_deref _ _ _ Hx)).
  rewrite (run_bind _ _ _ _ _ (run_deref _ _ _ Hr)).
  apply run_bind_except, (run_view_ref_raise _ _ ox); [done|].
  by apply view_Raise.
Qed.

Lemma forward_hpu_size_mismatch_witness :
  forward idle_ops DispatchExamples.uninit_nan (BoundClass reference_apply)
    0 0 (Some 1) DispatchExamples.store_mismatch
  = Some (Except (TorchError RuntimeError), DispatchExamples.store_mismatch).
Proof.
  apply (forward_hpu_size_mismatch _ _ _ _ _ _ _
           (TensorObj "hpu" (Tensor float32 [5] (replicate 5 (of_Z float32 2))))
           (TensorObj "hpu" (Examples.twos float32)));
    [reflexivity|reflexivity|reflexivity|simpl; lia].
Defined.

End DispatchForward.


Section DispatchHpu.
Import Dispatch.
Implicit Types (σ : state) (ops : custom_ops).

Lemma reference_apply_implements : implements_reference reference_apply.
Proof.
  intros σ x w eps ox ow o Hx Hw Hfwd. unfold reference_apply.
  do 2 eexists. split.
  - rewrite (run_bind _ _ _ _ _ (run_deref _ _ _ Hx)).
    rewrite (run_bind _ _ _ _ _ (run_deref _ _ _ Hw)).
    rewrite Hfwd. reflexivity.
  - simpl. split; [|split; [apply is_fresh|by rewrite lookup_insert_eq]].
    split; [done|]. simpl. apply insert_subseteq, not_elem_of_dom, is_fresh.
Qed.

(** X10: on an HPU, with a residual, [forward] adds the input to the
    residual in place and hands the sum to the fused kernel.  For [float32]
    tensors of one shape and a kernel that computes what the reference
    computes without a residual, the call returns what [_forward] returns
    for the input and the residual: the caller's residual object then holds
    the updated residual, and the returned tensor is the normalized
    output. *)
Theorem forward_hpu_residual_float32 ops uninit apply self x residual σ
    ox or m ow lead n :
  implements_reference apply →
  objects σ !! x = Some ox → device_type ox = "hpu"%string →
  objects σ !! residual = Some or →
  modules σ !! self = Some m →
  objects σ !! Store.weight_ref m = Some ow →
  Store.weight_ref m ≠ residual →
  t_dtype (value ox) = float32 → t_dtype (value or) = float32 →
  shape (value ox) = lead ++ [n] → wf_tensor (value ox) →
  shape (value or) = shape (value ox) → wf_tensor (value or) →
  shape (value ow) = [n] → wf_tensor (value ow) →
  ∃ lo σ' o res,
    forward ops uninit (BoundClass apply) self x (Some residual) σ
    = Some (Return (Store.OutResidualRef lo residual), σ') ∧
    RMSNorm._forward (RMSNorm.Build (value ow) (Store.eps_attr m))
      (value ox) (Some (value or)) = Ok (RMSNorm.OutResidual o res) ∧
    value <$> (objects σ' !! lo) = Some o ∧
    value <$> (objects σ' !! residual) = Some res.
Proof.
  intros Hk Hx Hdev Hr Hm Hw Hne Hdx Hdr Hsx Hwx Hsr Hwr Hsw Hww.
  destruct (forward_add_then_normalize
              (RMSNorm.Build (value ow) (Store.eps_attr m))
              (value ox) (value or) lead n)
    as (sum & o & Hsum & Hfused & Hplain & Hso); try done.
  unfold forward.
  rewrite (run_bind _ _ _ _ _ (use_fused_on_hpu apply x ox σ Hx Hdev)).
  rewrite (run_bind _ _ _ _ _ (run_deref _ _ _ Hx)).
  rewrite (run_bind _ _ _ _ _ (run_deref _ _ _ Hr)).
  assert (Hview : view (shape (value or)) (value ox) = Ok (value ox))
    by (rewrite Hsr; apply view_own_shape).
  rewrite (run_bind _ _ _ _ _ (run_view_ref x _ ox _ σ Hx Hview)).
  set (l1 := fresh (dom (objects σ))).
  set (σ1 := State (<[l1:=TensorObj (device_type ox) (value ox)]> (objects σ))
                   (modules σ)).
  assert (Hr1 : objects σ1 !! residual = Some or).
  { simpl. rewrite lookup_insert_ne; [done|]. symmetry. by eapply fresh_not_in. }
  assert (Hl1 : objects σ1 !! l1 = Some (TensorObj (device_type ox) (value ox)))
    by (simpl; apply lookup_insert_eq).
  rewrite (run_bind _ _ _ _ _ (run_iadd_ref residual l1 or _ sum σ1 Hr1 Hl1 Hsum)).
  set (σ2 := State (<[residual:=TensorObj (device_type or) sum]> (objects σ1))
                   (modules σ1)).
  assert (Hm2 : modules σ2 !! self = Some m) by done.
  rewrite (run_bind _ _ _ _ _ (run_getattr Store.weight_ref self m σ2 Hm2)).
  rewrite (run_bind _ _ _ _ _ (run_getattr Store.eps_attr self m σ2 Hm2)).
  assert (Hr2 : objects σ2 !! residual = Some (TensorObj (device_type or) sum))
    by (simpl; apply lookup_insert_eq).
  assert (Hw2 : objects σ2 !! Store.weight_ref m = Some ow).
  { simpl. rewrite !lookup_insert_ne; [done| |done].
    symmetry. by eapply fresh_not_in. }
  destruct (Hk σ2 residual (Store.weight_ref m) (Store.eps_attr m) _ ow o Hr2 Hw2 Hplain)
    as (l & σ3 & Hrun & Hext & Hfresh & Hl).
  rewrite (run_bind _ _ _ _ _ Hrun).
  destruct (objects σ3 !! l) as [ol|] eqn:Hol; [|done].
  injection Hl as Hl.
  assert (Hview' : view (shape (value ox)) (value ol) = Ok (value ol))
    by (rewrite Hl, <-Hso; apply view_own_shape).
  rewrite (run_bind _ _ _ _ _ (run_view_ref l _ ol _ σ3 Hol Hview')).
  do 4 eexists. split; [reflexivity|]. split; [exact Hfused|].
  simpl. split.
  - by rewrite lookup_insert_eq, <-Hl.
  - rewrite lookup_insert_ne.
    + transitivity (value <$> Some (TensorObj (device_type or) sum)); [|done].
      f_equal. exact (dispatch_extends_lookup _ _ _ _ Hext Hr2).
    + symmetry. eapply fresh_not_in, dispatch_extends_lookup; [exact Hext|exact Hr2].
Qed.

Lemma forward_hpu_residual_float32_witness :
  ∃ lo σ' o res,
    forward idle_ops DispatchExamples.uninit_nan (BoundClass reference_apply)
      0 0 (Some 1) (DispatchExamples.store_on "hpu")
    = Some (Return (Store.OutResidualRef lo 1), σ') ∧
    RMSNorm._forward Examples.layer4 (Examples.twos float32)
      (Some (Examples.twos float32)) = Ok (RMSNorm.OutResidual o res) ∧
    value <$> (objects σ' !! 1) = Some res.
Proof.
  destruct (forward_hpu_residual_float32 idle_ops DispatchExamples.uninit_nan
              reference_apply 0 0 1 (DispatchExamples.store_on "hpu")
              (TensorObj "hpu" (Examples.twos float32))
              (TensorObj "hpu" (Examples.twos float32))
              (Store.ModuleObj 2 RMSNorm.eps_default)
              (TensorObj "hpu" (RMSNorm.weight Examples.layer4)) [] 4)
    as (lo & σ' & o & res & Hrun & Hfwd & _ & Hres);
    try reflexivity; [apply reference_apply_implements|discriminate|].
  exists lo, σ', o, res. split; [exact Hrun|]. split; [exact Hfwd|exact Hres].
Defined.

End DispatchHpu.


(** ** Dtypes and shapes of what is returned *)

Section Returned.
Import Formula Layout RMSNorm.
Implicit Types (a b x r t : tensor) (self : RMSNorm.t).

Lemma binary_op_inv f a b t :
  binary_op f a b = Ok t →
  broadcast_shapes (shape a) (shape b) = Some (shape t) ∧
  t_dtype t = result_type a b.
Proof.
  unfold binary_op. destruct (broadcast_shapes _ _) as [s|]; [|done].
  by intros [= <-].
Qed.

(** X11: with a residual the call returns a pair, and the updated residual
    is stored at the dtype of the input, whatever dtype the residual came
    in; its shape is the broadcast of the two shapes, and the output has
    the broadcast of that shape and the weight's.  Without a residual the
    call returns a single tensor. *)
Theorem forward_returned_types self x residual out :
  _forward self x residual = Ok out →
  match residual with
  | Some r =>
      ∃ o res, out = OutResidual o res ∧
        t_dtype res = t_dtype x ∧
        broadcast_shapes (shape x) (shape r) = Some (shape res) ∧
        broadcast_shapes (shape res) (shape (weight self)) = Some (shape o)
  | None =>
      ∃ o, out = Out o ∧
        broadcast_shapes (shape x) (shape (weight self)) = Some (shape o)
  end.
Proof.
  unfold _forward. destruct residual as [r|]; simpl.
  - destruct (add (to float32 x) (to float32 r)) as [s|] eqn:Hadd; [|done]. simpl.
    destruct (scale_step_Ok (variance_epsilon self) s) as (n & -> & Hsn). simpl.
    destruct (mul (to (t_dtype x) n) (weight self)) as [o|] eqn:Hmul; [|done].
    intros [= <-]. do 2 eexists. split; [done|].
    apply binary_op_inv in Hadd as [Hs _]. apply binary_op_inv in Hmul as [Ho _].
    rewrite !shape_to in *. rewrite t_dtype_to. by rewrite Hsn in Ho.
  - destruct (scale_step_Ok (variance_epsilon self) (to float32 x)) as (n & -> & Hsn).
    simpl.
    destruct (mul (to (t_dtype x) n) (weight self)) as [o|] eqn:Hmul; [|done].
    intros [= <-]. eexists. split; [done|].
    apply binary_op_inv in Hmul as [Ho _].
    rewrite !shape_to in *. by rewrite Hsn in Ho.
Qed.

Lemma forward_returned_types_witness :
  ∃ o res,
    _forward Examples.layer4 (Examples.twos float16) (Some (Examples.twos float32))
    = Ok (OutResidual o res) ∧
    t_dtype res = float16.
Proof.
  assert (Hrun : ∃ out,
    _forward Examples.layer4 (Examples.twos float16) (Some (Examples.twos float32))
    = Ok out) by (vm_compute; eauto).
  destruct Hrun as (out & Hrun).
  destruct (forward_returned_types _ _ _ _ Hrun) as (o & res & -> & Hd & _).
  exists o, res. split; [exact Hrun|exact Hd].
Defined.

Lemma zip_with_replicate_l {A B C} (f : A → B → C) (a : A) (l : list B) :
  zip_with f (replicate (length l) a) l = f a <$> l.
Proof. induction l as [|b l IH]; csimpl; [done|by rewrite IH]. Qed.

Lemma expand_scalar {A} n (p : A) : expand [1] [n] [p] = replicate n p.
Proof.
  simpl. case_decide as Hn.
  - subst n. done.
  - induction n as [|n IH]; simpl; [done|]. f_equal.
    destruct (decide (1 = n)) as [<-|Hn']; [done|]. by apply IH.
Qed.

Lemma scale_zero_dim eps v :
  mul (Tensor float32 [] [v])
      (rsqrt (add_scalar (mean_lastdim (pow2 (Tensor float32 [] [v]))) eps))
  = Ok (Tensor float32 [] [fmul float32 v (scale eps [v])]).
Proof. reflexivity. Qed.

Lemma mul_zero_dim_vector d q w n :
  shape w = [n] → wf_tensor w →
  mul (Tensor d [] [q]) w
  = Ok (Tensor (t_dtype w) [n] (fmul (t_dtype w) (convert d (t_dtype w) q) <$> data w)).
Proof.
  intros Hsw Hw. pose proof (wf_vector _ n Hsw Hw) as Hlen.
  unfold mul, binary_op, result_type. rewrite Hsw. cbn [shape].
  change (broadcast_shapes [] [n]) with (broadcast_dim 1 n ≫= λ d, Some [d]).
  rewrite broadcast_dim_one_l. cbn [mbind option_bind length].
  rewrite !data_to. cbn [t_dtype data].
  change (pad_shape 1 []) with [1]. change (pad_shape 1 [n]) with [n].
  change (convert d (t_dtype w) <$> [q]) with [convert d (t_dtype w) q].
  rewrite expand_scalar, expand_id by (rewrite length_fmap; simpl; lia).
  rewrite convert_same. do 2 f_equal. rewrite <-Hlen. apply zip_with_replicate_l.
Qed.

(** X12: a zero-dimensional input is normalized as a row of one element
    and then broadcast against the weight: the output has the shape of the
    weight vector and, a zero-dimensional tensor not taking part in type
    promotion, its dtype - element [i] is the one normalized value, stored
    at the input's dtype and converted to the weight's, times weight[i]. *)
Theorem forward_zero_dim self x xv n :
  shape x = [] → data x = [xv] →
  shape (weight self) = [n] → wf_tensor (weight self) →
  let orig := t_dtype x in
  let wd := t_dtype (weight self) in
  let x32 := convert orig float32 xv in
  let p := convert orig wd
             (convert float32 orig
                (fmul float32 x32 (scale (variance_epsilon self) [x32]))) in
  _forward self x None
  = Ok (Out (Tensor wd [n] (fmul wd p <$> data (weight self)))).
Proof.
  intros Hsx Hdx Hsw Hw orig wd x32 p.
  unfold _forward. rewrite (to_eq float32 x), Hsx, Hdx.
  cbn [mbind result_bind fmap list_fmap].
  rewrite scale_zero_dim. cbn [mbind result_bind].
  rewrite to_eq. cbn [shape data t_dtype fmap list_fmap].
  by rewrite (mul_zero_dim_vector _ _ _ n Hsw Hw).
Qed.

Lemma forward_zero_dim_witness :
  ∃ o, _forward Examples.layer4 MoreExamples.scalar64 None = Ok (Out o) ∧
       shape o = [4] ∧ t_dtype o = float32.
Proof.
  eexists. split.
  - apply (forward_zero_dim Examples.layer4 MoreExamples.scalar64 (of_Z float64 2) 4);
      reflexivity.
  - split; reflexivity.
Defined.

End Returned.
